(** * dm-data-generalizer: the generalization pipeline of [src/main.py]

    A shallow embedding of the three cell mappers ([generalize_job_title],
    [generalize_age], [generalize_city_to_state]) and of the body of [main]
    that applies them column-wise to a pandas [DataFrame], followed by the
    properties of the specification that were checked against it. *)

From Stdlib Require Import ZArith Lia Bool Ascii String.
From Stdlib Require Import Floats.SpecFloat.
From stdpp Require Import base tactics option list strings pretty gmap.

Local Open Scope string_scope.
Local Open Scope list_scope.
Local Open Scope Z_scope.

(** ** Python values *)

Module Py.

(** The scalar values a DataFrame cell can hold after [pd.read_csv], plus
    [None], which [generalize_city_to_state] returns on failure.  A [str] is
    held as its bytes; a [float] is an IEEE-754 double given by its sign,
    mantissa and exponent ([SpecFloat.spec_float]). *)
Inductive value : Type :=
  | PyNone
  | PyBool (b : bool)
  | PyInt (z : Z)
  | PyFloat (f : spec_float)
  | PyStr (s : string).

(** Exceptions, each with the text [str(e)] renders. *)
Inductive exn : Type :=
  | ValueError (msg : string)
  | OverflowError (msg : string)
  | TypeError (msg : string)
  | FileNotFoundError (msg : string)
  | OtherException (msg : string).

Definition exn_msg (e : exn) : string :=
  match e with
  | ValueError m | OverflowError m | TypeError m
  | FileNotFoundError m | OtherException m => m
  end.

(** [isinstance(e, ValueError)]: none of the other classes derives from it. *)
Definition is_ValueError (e : exn) : bool :=
  match e with ValueError _ => true | _ => false end.

Definition is_FileNotFoundError (e : exn) : bool :=
  match e with FileNotFoundError _ => true | _ => false end.

(** *** [int(x)] *)

Definition code (a : ascii) : Z := Z.of_nat (nat_of_ascii a).

(** The characters [int] skips around an ASCII literal: TAB..CR and SPACE. *)
Definition is_space (a : ascii) : bool :=
  let n := code a in
  ((9 <=? n) && (n <=? 13)) || (n =? 32).

Definition digit_value (a : ascii) : option Z :=
  let n := code a in
  if (48 <=? n) && (n <=? 57) then Some (n - 48) else None.

Definition is_underscore (a : ascii) : bool := code a =? 95.

Fixpoint skip_spaces (l : list ascii) : list ascii :=
  match l with
  | a :: l' => if is_space a then skip_spaces l' else l
  | [] => []
  end.

(** The digit scan of a base-10 literal: digits, with single underscores
    allowed between them.  [prev_us] tells that the previous character was
    an underscore; the result is the value, the number of digits read and
    the unread rest. *)
Fixpoint scan_digits (l : list ascii) (prev_us : bool) (count : nat) (acc : Z)
  : option (Z * nat * list ascii) :=
  match l with
  | a :: l' =>
      match digit_value a with
      | Some d => scan_digits l' false (S count) (10 * acc + d)
      | None =>
          if is_underscore a then
            if prev_us then None else scan_digits l' true count acc
          else if prev_us then None else Some (acc, count, l)
      end
  | [] => if prev_us then None else Some (acc, count, [])
  end.

(** CPython's default [sys.int_info.default_max_str_digits]. *)
Definition max_str_digits : nat := 4300.

Definition parse_unsigned (l : list ascii) : option Z :=
  match l with
  | a :: _ =>
      if is_underscore a then None
      else
        match scan_digits l false 0 0 with
        | Some (v, count, rest) =>
            if (count =? 0)%nat then None
            else if (max_str_digits <? count)%nat then None
            else match skip_spaces rest with [] => Some v | _ :: _ => None end
        | None => None
        end
  | [] => None
  end.

(** [int(s)] for an ASCII [str]: surrounding blanks, an optional sign, a
    base-10 literal.  [None] stands for the [ValueError] of an invalid
    literal. *)
Definition int_of_string (s : string) : option Z :=
  match skip_spaces (list_ascii_of_string s) with
  | a :: l' =>
      if (code a =? 43) then parse_unsigned l'
      else if (code a =? 45) then Z.opp <$> parse_unsigned l'
      else parse_unsigned (a :: l')
  | [] => None
  end.

(** A [str] is held as its bytes; it is ASCII when none has the high bit. *)
Definition is_ascii (s : string) : bool :=
  forallb (λ a, code a <? 128) (list_ascii_of_string s).

(** Outside ASCII, [int] also reads the decimal digits and the blanks of
    other scripts, by the interpreter's Unicode tables; what it makes of such
    a [str], an integer or the [ValueError] of an invalid literal, is kept
    abstract. *)
Class UnicodeInt := unicode_int : string → option Z.

(** [int(s)] for any [str]. *)
Definition int_of_str {unicode : UnicodeInt} (s : string) : option Z :=
  if is_ascii s then int_of_string s else unicode_int s.

(** [int(x)] for a finite [float]: the integer part, rounding toward zero. *)
Definition trunc_float (s : bool) (m : positive) (e : Z) : Z :=
  let mag := if 0 <=? e then Z.pos m * 2 ^ e else Z.pos m / 2 ^ (- e) in
  if s then - mag else mag.

(** [int(x)].  The message of the invalid-literal error leaves out the
    quoting of [repr]; no handler of the program renders it. *)
Definition int {unicode : UnicodeInt} (v : value) : exn + Z :=
  match v with
  | PyNone =>
      inl (TypeError "int() argument must be a string, a bytes-like object or a real number, not 'NoneType'")
  | PyBool b => inr (if b then 1 else 0)
  | PyInt z => inr z
  | PyFloat S754_nan => inl (ValueError "cannot convert float NaN to integer")
  | PyFloat (S754_infinity _) =>
      inl (OverflowError "cannot convert float infinity to integer")
  | PyFloat (S754_zero _) => inr 0
  | PyFloat (S754_finite s m e) => inr (trunc_float s m e)
  | PyStr s =>
      match int_of_str s with
      | Some z => inr z
      | None => inl (ValueError ("invalid literal for int() with base 10: " +:+ s))
      end
  end.

(** *** [str(x)] *)

(** The shortest-round-trip rendering of a finite non-zero double is the
    interpreter's; it is kept abstract. *)
Class FloatRepr := float_repr : bool → positive → Z → string.

Definition str {repr : FloatRepr} (v : value) : string :=
  match v with
  | PyNone => "None"
  | PyBool b => if b then "True" else "False"
  | PyInt z => pretty z
  | PyFloat S754_nan => "nan"
  | PyFloat (S754_infinity s) => if s then "-inf" else "inf"
  | PyFloat (S754_zero s) => if s then "-0.0" else "0.0"
  | PyFloat (S754_finite s m e) => float_repr s m e
  | PyStr s => s
  end.

End Py.

Export Py.

(** ** The part of pandas the program uses *)

Module Pandas.

(** A [Series] is the list of a column's cells, top row first; a
    [DataFrame] is the ordered list of its named columns.  [pd.read_csv]
    gives every column a distinct name and the same number of cells. *)
Abbreviation Series := (list value).
Abbreviation DataFrame := (list (string * list value)).

(** [df.columns] *)
Definition columns (df : DataFrame) : list string := df.*1.

(** [len(df)] *)
Definition nrows (df : DataFrame) : nat :=
  match df with
  | [] => 0%nat
  | (_, s) :: _ => length s
  end.

(** [c in df.columns] *)
Definition has_column (c : string) (df : DataFrame) : bool :=
  bool_decide (c ∈ columns df).

(** [df[c]]: the column of that name, if any. *)
Fixpoint get_column (c : string) (df : DataFrame) : option Series :=
  match df with
  | [] => None
  | (c', s) :: df' => if decide (c' = c) then Some s else get_column c df'
  end.

(** [df[c] = s]: replaces the column of that name in place, and appends a
    new last column when there is none. *)
Fixpoint set_column (c : string) (s : Series) (df : DataFrame) : DataFrame :=
  match df with
  | [] => [(c, s)]
  | (c', s') :: df' =>
      if decide (c' = c) then (c, s) :: df' else (c', s') :: set_column c s df'
  end.

(** [s.head(n)], that is [s.iloc[:n]]: the first [n] cells, and for a
    negative [n] all cells but the last [-n]. *)
Definition head_series (n : Z) (s : Series) : Series :=
  if 0 <=? n then take (Z.to_nat n) s
  else take (length s - Z.to_nat (- n)) s.

(** [df.head(n)] *)
Definition head (n : Z) (df : DataFrame) : DataFrame :=
  prod_map id (head_series n) <$> df.

End Pandas.

Export Pandas.

(** ** Effects: the log, the random source, the written files, exceptions *)

Inductive level : Type := INFO | ERROR.

(** What [fake = Faker(); fake.state()] comes to when [fake.state()] does
    not raise: the state name it returns, or the exception of a [Faker()]
    that could not be built, in which case [state()] is never called. *)
Inductive draw : Type :=
  | Drawn (state : string)
  | NotBuilt (e : exn).

(** The generator behind [Faker().state()], one call at a time: [inl e]
    when [fake.state()] raises [e], [inr] of a [draw] otherwise; and the
    generator the call leaves. *)
Class Faker := {
  rng : Type;
  fake_state : rng → (exn + draw) * rng
}.

(** Where the files go: the exception [df.to_csv(path)] raises for a table,
    if the path cannot be written. *)
Class Disk := write_error : string → DataFrame → option exn.

Section Program.
Context {repr : FloatRepr} {unicode : UnicodeInt} {faker : Faker} {disk : Disk}.

Record world : Type := World {
  w_rng : rng;
  w_log : list (level * string);
  w_files : list (string * DataFrame)
}.

(** A computation runs from a world to a returned value or a raised
    exception, and the world it leaves. *)
Definition M (A : Type) : Type := world → (exn + A) * world.

Definition ret {A} (a : A) : M A := λ w, (inr a, w).

Definition raise {A} (e : exn) : M A := λ w, (inl e, w).

Definition bind {A B} (m : M A) (k : A → M B) : M B :=
  λ w, match m w with
       | (inr a, w') => k a w'
       | (inl e, w') => (inl e, w')
       end.

#[global] Instance M_ret : MRet M := @ret.
#[global] Instance M_bind : MBind M := λ A B k m, bind m k.

Definition lift {A} (r : exn + A) : M A :=
  match r with inl e => raise e | inr a => ret a end.

(** [try: body / except <catches> as e: handler e] *)
Definition try_except {A} (body : M A) (catches : exn → bool)
    (handler : exn → M A) : M A :=
  λ w, match body w with
       | (inl e, w') => if catches e then handler e w' else (inl e, w')
       | (inr a, w') => (inr a, w')
       end.

Definition logging (l : level) (msg : string) : M unit :=
  λ w, (inr tt, World (w_rng w) (w_log w ++ [(l, msg)]) (w_files w)).

(** [Faker()]: raises when the generator cannot be built; the object it
    returns otherwise holds what its [state()] will come to. *)
Definition Faker_new : M ((exn + string) * rng) :=
  λ w, match fake_state (w_rng w) with
       | (inr (NotBuilt e), g) => (inl e, World g (w_log w) (w_files w))
       | (inr (Drawn state), g) => (inr (inr state, g), w)
       | (inl e, g) => (inr (inl e, g), w)
       end.

(** [fake.state()] *)
Definition Faker_state (fake : (exn + string) * rng) : M string :=
  λ w, (fake.1, World fake.2 (w_log w) (w_files w)).

(** [df.to_csv(path, index=False)]: raises when the path cannot be written,
    and leaves no file then; otherwise the table is recorded under its
    path. *)
Definition to_csv (df : DataFrame) (path : string) : M unit :=
  λ w, match write_error path df with
       | Some e => (inl e, w)
       | None =>
           (inr tt, World (w_rng w) (w_log w) (w_files w ++ [(path, df)]))
       end.

(** [w'] comes after [w] by logging alone: the same files, a longer log. *)
Definition extends (w w' : world) : Prop :=
  w_files w' = w_files w ∧ ∃ log, w_log w' = w_log w ++ log.

(** [s.apply(f)]: [f] on every cell, top row first. *)
Fixpoint apply {A B} (f : A → M B) (s : list A) : M (list B) :=
  match s with
  | [] => ret []
  | x :: s' => y ← f x; ys ← apply f s'; ret (y :: ys)
  end.

(** ** The program: [src/main.py] *)

Definition JOB_TITLE_MAPPING : gmap string string :=
  list_to_map [
    ("Software Engineer", "Engineer");
    ("Data Scientist", "Data Analyst");
    ("Project Manager", "Manager");
    ("Accountant", "Finance Professional");
    ("Teacher", "Educator");
    ("Nurse", "Healthcare Professional");
    ("Doctor", "Healthcare Professional");
    ("Lawyer", "Legal Professional");
    ("Sales Representative", "Sales Professional");
    ("Marketing Manager", "Marketing Professional")
  ].

Definition AGE_RANGES : list (Z * Z) :=
  [(18, 25); (26, 35); (36, 45); (46, 55); (56, 65); (66, 75); (76, 85);
   (86, 95)].

(** The arguments [setup_argparse] declares, as [parse_args] returns them. *)
Record Args : Type := {
  input_file : string;
  output_file : string;
  job_title_column : option string;
  age_column : option string;
  city_column : option string;
  num_rows : option Z
}.

(** [if job_title in JOB_TITLE_MAPPING: return JOB_TITLE_MAPPING[job_title]
    else: return job_title] *)
Definition generalize_job_title (job_title : string) : string :=
  match JOB_TITLE_MAPPING !! job_title with
  | Some category => category
  | None => job_title
  end.

(** The [for age_range in AGE_RANGES] loop of [generalize_age]: the label of
    the first range that holds [age], or [None] when the loop runs out. *)
Fixpoint scan_ranges (ranges : list (Z * Z)) (age : Z) : option string :=
  match ranges with
  | [] => None
  | age_range :: ranges' =>
      if (age_range.1 <=? age) && (age <=? age_range.2)
      then Some (pretty age_range.1 +:+ "-" +:+ pretty age_range.2)
      else scan_ranges ranges' age
  end.

(** The body of [generalize_age] below the conversion: what it returns for
    the integer [int(age)]. *)
Definition bucket (age : Z) : string :=
  if negb ((0 <=? age) && (age <=? 120)) then "Unknown"
  else
    match scan_ranges AGE_RANGES age with
    | Some label => label
    | None => "Unknown"
    end.

Definition generalize_age (age : value) : M string :=
  try_except
    (age' ← lift (Py.int age);
     if negb ((0 <=? age') && (age' <=? 120)) then mret "Unknown"
     else
       match scan_ranges AGE_RANGES age' with
       | Some label => mret label
       | None => mret "Unknown"
       end)
    is_ValueError
    (λ _,
       logging ERROR
         ("Invalid age value: " +:+ Py.str age +:+ ".  Returning 'Unknown'");;
       mret "Unknown").

Definition generalize_city_to_state (city : string) : M value :=
  fake ← Faker_new;
  try_except
    (state ← Faker_state fake; mret (PyStr state))
    (λ _, true)
    (λ e,
       logging ERROR
         ("Failed to generalize city " +:+ city +:+ " to state: " +:+ exn_msg e);;
       mret PyNone).

(** The cells on which [int] raises something other than a [ValueError],
    which the handler of [generalize_age] does not catch. *)
Definition escapes (v : value) : bool :=
  match Py.int v with
  | inl e => negb (is_ValueError e)
  | inr _ => false
  end.

(** [df[c]] as an expression: a [KeyError] when there is no such column. *)
Definition getitem (df : DataFrame) (c : string) : M Series :=
  match get_column c df with
  | Some s => mret s
  | None => raise (OtherException ("'" +:+ c +:+ "'"))
  end.

(** [if args.x_column:] holds for a given, non-empty name. *)
Definition given (column : option string) : option string :=
  match column with
  | Some c => if decide (c = EmptyString) then None else Some c
  | None => None
  end.

(** Lines 115-116 of [main]: [if args.num_rows is not None: df = df.head(...)]. *)
Definition limit_rows (args : Args) (df : DataFrame) : DataFrame :=
  match num_rows args with
  | Some n => head n df
  | None => df
  end.

(** Lines 119-122 of [main]. *)
Definition job_title_stage (args : Args) (df : DataFrame) : M DataFrame :=
  match given (job_title_column args) with
  | Some c =>
      if negb (has_column c df) then
        raise (ValueError
                 ("Job title column '" +:+ c +:+ "' not found in input file."))
      else
        s ← getitem df c;
        let s' := (λ v, PyStr (generalize_job_title v)) <$> (Py.str <$> s) in
        mret (set_column c s' df)
  | None => mret df
  end.

(** Lines 125-128 of [main]. *)
Definition age_stage (args : Args) (df : DataFrame) : M DataFrame :=
  match given (age_column args) with
  | Some c =>
      if negb (has_column c df) then
        raise (ValueError
                 ("Age column '" +:+ c +:+ "' not found in input file."))
      else
        s ← getitem df c;
        s' ← apply (λ v, label ← generalize_age v; mret (PyStr label)) s;
        mret (set_column c s' df)
  | None => mret df
  end.

(** Lines 131-134 of [main]. *)
Definition city_stage (args : Args) (df : DataFrame) : M DataFrame :=
  match given (city_column args) with
  | Some c =>
      if negb (has_column c df) then
        raise (ValueError
                 ("City column '" +:+ c +:+ "' not found in input file."))
      else
        s ← getitem df c;
        s' ← apply generalize_city_to_state (Py.str <$> s);
        mret (set_column c s' df)
  | None => mret df
  end.

(** Lines 114-134 of [main]: the row limit, then the three column stages. *)
Definition transform (args : Args) (df : DataFrame) : M DataFrame :=
  df ← job_title_stage args (limit_rows args df);
  df ← age_stage args df;
  city_stage args df.

(** [main], after [parse_args]; [read_csv] is what [pd.read_csv] makes of a
    path: a table, or the exception it raises. *)
Definition main (read_csv : string → exn + DataFrame) (args : Args) : M unit :=
  try_except
    (try_except
       (try_except
          (df ← lift (read_csv (input_file args));
           df ← transform args df;
           to_csv df (output_file args);;
           logging INFO
             ("Data generalization complete. Output written to "
                +:+ output_file args))
          is_FileNotFoundError
          (λ _, logging ERROR ("Input file not found: " +:+ input_file args)))
       is_ValueError
       (λ e, logging ERROR ("ValueError: " +:+ exn_msg e)))
    (λ _, true)
    (λ e, logging ERROR ("An unexpected error occurred: " +:+ exn_msg e)).

(** The exit status of the script: 1 when an exception leaves [main]. *)
Definition exit_status (r : (exn + unit) * world) : Z :=
  match r.1 with inl _ => 1 | inr _ => 0 end.

End Program.


(** ** A concrete runtime, to run the program on examples *)

(** A generator that replays a script of outcomes and fails once the script
    is over. *)
Definition scripted : Faker := {|
  rng := list (exn + draw);
  fake_state := λ g,
    match g with
    | r :: g' => (r, g')
    | [] => (inl (OtherException "generator exhausted"), [])
    end
|}.

(** A reading of non-ASCII strings with no digits or blanks beyond ASCII:
    none of them is an integer literal. *)
Definition ascii_digits : UnicodeInt := λ _, None.

(** A disk on which every path can be written. *)
Definition writable : Disk := λ _ _, None.

(** A stand-in for the interpreter's rendering of finite doubles: exact, but
    in binary notation. *)
Definition binary_repr : FloatRepr := λ s m e,
  (if s then "-" else EmptyString) +:+ pretty (Z.pos m) +:+ "*2**" +:+ pretty e.

(** The double nearest to 25.9. *)
Definition float_25_9 : spec_float := S754_finite false 7290201896805990 (-48).

Definition args_of (job age city : option string) (n : option Z) : Args := {|
  input_file := "input.csv";
  output_file := "output.csv";
  job_title_column := job;
  age_column := age;
  city_column := city;
  num_rows := n
|}.

Definition people : DataFrame :=
  [("Job Title", [PyStr "Software Engineer"; PyStr "Astronaut"; PyFloat S754_nan]);
   ("Age", [PyInt 30; PyInt 150; PyStr "abc"]);
   ("City", [PyStr "Austin"; PyStr "Boston"; PyStr "Chicago"])].

(** A world to start from: a generator scripted to succeed, fail and
    succeed, an empty log and no file written. *)
Definition world0 : @world scripted :=
  @World scripted
    [inr (Drawn "Ohio"); inl (OtherException "no locale"); inr (Drawn "Texas")]
    [] [].

(** Everything [generalize_age] can return: the label of a range, or the
    sentinel. *)
Definition AGE_LABELS : list string :=
  ((λ age_range : Z * Z, pretty age_range.1 +:+ "-" +:+ pretty age_range.2)
     <$> AGE_RANGES) ++ ["Unknown"].

Definition is_None (v : value) : bool :=
  match v with PyNone => true | _ => false end.

(** What [str.apply(generalize_age)] can put in a cell. *)
Definition is_age_label (v : value) : Prop :=
  ∃ label, v = PyStr label ∧ label ∈ AGE_LABELS.

(** The generator after [n] calls. *)
Definition drawn {faker : Faker} (n : nat) (g : rng) : rng :=
  Nat.iter n (λ g', (fake_state g').2) g.

(** The arguments with the row limit taken out. *)
Definition without_limit (args : Args) : Args := {|
  input_file := input_file args;
  output_file := output_file args;
  job_title_column := job_title_column args;
  age_column := age_column args;
  city_column := city_column args;
  num_rows := None
|}.

(** ** Properties *)

Section Properties.
Context {repr : FloatRepr} {unicode : UnicodeInt} {faker : Faker} {disk : Disk}.
Implicit Types (w : world) (df : DataFrame) (s : Series) (c : string).

(** *** The age bucketer *)

Lemma scan_ranges_Some ranges age label :
  scan_ranges ranges age = Some label →
  ∃ i lo hi,
    ranges !! i = Some (lo, hi) ∧ lo ≤ age ≤ hi ∧
    label = pretty lo +:+ "-" +:+ pretty hi ∧
    ∀ j lo' hi', (j < i)%nat → ranges !! j = Some (lo', hi') →
                 ¬ (lo' ≤ age ≤ hi').
Proof.
  induction ranges as [|[lo hi] ranges IH]; simpl; [done|].
  destruct (Z.leb_spec lo age), (Z.leb_spec age hi); simpl;
    try (intros [= <-]; exists 0%nat, lo, hi; repeat split; try lia;
         intros j ? ? Hj; lia);
    intros (i & lo1 & hi1 & Hi & Hb & -> & Hfirst)%IH;
    exists (S i), lo1, hi1; (repeat split; try done; try lia);
    (intros [|j] lo' hi' Hj; simpl; [intros [= <- <-]; lia | apply Hfirst; lia]).
Qed.

Lemma scan_ranges_None ranges age lo hi :
  scan_ranges ranges age = None → (lo, hi) ∈ ranges → ¬ (lo ≤ age ≤ hi).
Proof.
  induction ranges as [|[lo1 hi1] ranges IH]; simpl.
  - intros _ Hin. by apply elem_of_nil in Hin.
  - destruct (Z.leb_spec lo1 age), (Z.leb_spec age hi1); simpl; try done;
      intros Hn [[= -> ->]|Hin]%elem_of_cons; try lia; by apply IH.
Qed.

Lemma generalize_age_converted v age w :
  Py.int v = inr age → generalize_age v w = (inr (bucket age), w).
Proof.
  intros Hint. unfold generalize_age, try_except, bucket, mbind, M_bind, bind.
  rewrite Hint. cbn [lift ret].
  destruct (negb _); [done|]. by destruct (scan_ranges AGE_RANGES age).
Qed.

Lemma generalize_age_ValueError v msg w :
  Py.int v = inl (ValueError msg) →
  generalize_age v w =
    (inr "Unknown",
     World (w_rng w)
       (w_log w ++ [(ERROR, "Invalid age value: " +:+ Py.str v
                              +:+ ".  Returning 'Unknown'")])
       (w_files w)).
Proof.
  intros Hint. unfold generalize_age, try_except; simpl.
  unfold mbind, M_bind, bind. by rewrite Hint.
Qed.

Lemma generalize_age_uncaught v e w :
  Py.int v = inl e → is_ValueError e = false →
  generalize_age v w = (inl e, w).
Proof.
  intros Hint He. unfold generalize_age, try_except; simpl.
  unfold mbind, M_bind, bind. rewrite Hint; simpl. by rewrite He.
Qed.

Lemma bucket_outside age : ¬ (0 ≤ age ≤ 120) → bucket age = "Unknown".
Proof.
  intros Hout. unfold bucket.
  by destruct (Z.leb_spec 0 age), (Z.leb_spec age 120); simpl; try lia.
Qed.

Lemma bucket_gap age : ¬ (18 ≤ age ≤ 95) → bucket age = "Unknown".
Proof.
  intros Hgap. unfold bucket. destruct (negb _); [done|].
  destruct (scan_ranges AGE_RANGES age) as [label|] eqn:Hscan; [|done].
  apply scan_ranges_Some in Hscan as (i & lo & hi & Hi & Hb & _).
  apply list_elem_of_lookup_2 in Hi.
  repeat (apply elem_of_cons in Hi as [[= -> ->]|Hi]; [lia|]).
  by apply elem_of_nil in Hi.
Qed.

Lemma AGE_RANGES_disjoint lo hi lo' hi' age :
  (lo, hi) ∈ AGE_RANGES → (lo', hi') ∈ AGE_RANGES →
  lo ≤ age ≤ hi → lo' ≤ age ≤ hi' → (lo', hi') = (lo, hi).
Proof.
  unfold AGE_RANGES. intros Hin Hin' Hb Hb'.
  repeat (apply elem_of_cons in Hin as [[= -> ->]|Hin]);
    try (by apply elem_of_nil in Hin);
    repeat (apply elem_of_cons in Hin' as [[= -> ->]|Hin']);
    try (by apply elem_of_nil in Hin'); (done || lia).
Qed.

Lemma AGE_RANGES_cover age :
  18 ≤ age ≤ 95 → ∃ lo hi, (lo, hi) ∈ AGE_RANGES ∧ lo ≤ age ≤ hi.
Proof.
  intros Hage. unfold AGE_RANGES.
  destruct (decide (age ≤ 25)); [exists 18, 25; split; [repeat constructor|lia]|].
  destruct (decide (age ≤ 35)); [exists 26, 35; split; [repeat constructor|lia]|].
  destruct (decide (age ≤ 45)); [exists 36, 45; split; [repeat constructor|lia]|].
  destruct (decide (age ≤ 55)); [exists 46, 55; split; [repeat constructor|lia]|].
  destruct (decide (age ≤ 65)); [exists 56, 65; split; [repeat constructor|lia]|].
  destruct (decide (age ≤ 75)); [exists 66, 75; split; [repeat constructor|lia]|].
  destruct (decide (age ≤ 85)); [exists 76, 85; split; [repeat constructor|lia]|].
  exists 86, 95; split; [repeat constructor|lia].
Qed.

(** C1.  For every integer age [a] with [18 <= a <= 95], [generalize_age]
    returns, without logging anything, the label ["{lo}-{hi}"] of a band
    [(lo, hi)] of [AGE_RANGES] whose inclusive bounds hold [a]; that band is
    the first one in scan order that holds [a], and the only one.  The string
    ["30"] is bucketed as ["26-35"]. *)
Theorem generalize_age_band (a : Z) w :
  18 ≤ a ≤ 95 →
  (∃ i lo hi,
      AGE_RANGES !! i = Some (lo, hi) ∧ lo ≤ a ≤ hi ∧
      generalize_age (PyInt a) w = (inr (pretty lo +:+ "-" +:+ pretty hi), w) ∧
      (∀ j lo' hi', (j < i)%nat → AGE_RANGES !! j = Some (lo', hi') →
                    ¬ (lo' ≤ a ≤ hi')) ∧
      (∀ lo' hi', (lo', hi') ∈ AGE_RANGES → lo' ≤ a ≤ hi' →
                  (lo', hi') = (lo, hi))) ∧
  generalize_age (PyStr "30") w = (inr "26-35", w).
Proof.
  intros Ha. split; [|by rewrite (generalize_age_converted _ 30)].
  rewrite (generalize_age_converted (PyInt a) a) by done.
  unfold bucket.
  destruct (Z.leb_spec 0 a), (Z.leb_spec a 120); try lia. cbn [andb negb].
  destruct (scan_ranges AGE_RANGES a) as [label|] eqn:Hscan.
  - apply scan_ranges_Some in Hscan as (i & lo & hi & Hi & Hb & -> & Hfirst).
    exists i, lo, hi. repeat split; try done; try lia.
    intros lo' hi' Hin' Hb'.
    eapply AGE_RANGES_disjoint; eauto using list_elem_of_lookup_2.
  - destruct (AGE_RANGES_cover a Ha) as (lo & hi & Hin & Hb).
    by destruct (scan_ranges_None _ _ _ _ Hscan Hin).
Qed.

Lemma generalize_age_returns v w :
  escapes v = false →
  ∃ label log,
    generalize_age v w =
      (inr label, World (w_rng w) (w_log w ++ log) (w_files w)).
Proof.
  unfold escapes. destruct (Py.int v) as [e|age] eqn:Hint.
  - destruct e; try done. intros _.
    rewrite (generalize_age_ValueError _ _ _ Hint). eauto.
  - intros _. rewrite (generalize_age_converted _ _ _ Hint).
    exists (bucket age), []. rewrite app_nil_r. by destruct w.
Qed.

Lemma escapes_spec v :
  escapes v = true ↔ v = PyNone ∨ ∃ sgn, v = PyFloat (S754_infinity sgn).
Proof.
  unfold escapes. split.
  - destruct v as [| | |[]|s]; simpl; try done; eauto.
    by destruct (int_of_str s).
  - by intros [->|[sgn ->]].
Qed.

(** C2.  On an infinite [float] the conversion raises [OverflowError], which
    the [except ValueError] handler lets through: [generalize_age] raises
    instead of returning ["Unknown"], and a run over a table with such an age
    cell ends in the catch-all handler of [main] without writing a file. *)
Theorem generalize_age_infinity_raises sgn w :
  generalize_age (PyFloat (S754_infinity sgn)) w =
    (inl (OverflowError "cannot convert float infinity to integer"), w) ∧
  main (λ _, inr [("Age", [PyInt 30; PyFloat (S754_infinity sgn)])])
       (args_of None (Some "Age") None None) w =
    (inr (),
     World (w_rng w)
       (w_log w ++
          [(ERROR, "An unexpected error occurred: cannot convert float infinity to integer")])
       (w_files w)).
Proof.
  split.
  - by apply generalize_age_uncaught.
  - reflexivity.
Qed.

Lemma trunc_float_spec sgn m e :
  let z := trunc_float sgn m e in
  Z.abs z * 2 ^ Z.max 0 (- e) ≤ Z.pos m * 2 ^ Z.max 0 e
    < (Z.abs z + 1) * 2 ^ Z.max 0 (- e) ∧
  (if sgn then z ≤ 0 else 0 ≤ z).
Proof.
  unfold trunc_float. destruct (Z.leb_spec 0 e) as [He|He].
  - rewrite (Z.max_l 0 (- e)), (Z.max_r 0 e) by lia.
    assert (0 < 2 ^ e) by (apply Z.pow_pos_nonneg; lia).
    destruct sgn; simpl; split; nia.
  - rewrite (Z.max_r 0 (- e)), (Z.max_l 0 e) by lia.
    assert (Hp : 0 < 2 ^ (- e)) by (apply Z.pow_pos_nonneg; lia).
    pose proof (Z.div_mod (Z.pos m) (2 ^ (- e)) ltac:(lia)) as Hdm.
    pose proof (Z.mod_pos_bound (Z.pos m) (2 ^ (- e)) Hp) as Hmod.
    assert (0 ≤ Z.pos m / 2 ^ (- e)) by (apply Z.div_pos; lia).
    destruct sgn; simpl; split; nia.
Qed.

Lemma float_25_9_nearest :
  float_25_9 = S754_finite false 7290201896805990 (-48) ∧
  2 ^ 52 ≤ 7290201896805990 < 2 ^ 53 ∧
  Z.abs (10 * 7290201896805990 - 259 * 2 ^ 48) ≤ 5.
Proof. split; [done|]. split; [split|]; by vm_compute. Qed.

(** C10.  [int] cuts the fraction of a [float] off, toward zero, so the
    float 25.9 is bucketed as ["18-25"]; the string ["25.9"] is no integer
    literal, so it is logged as invalid and bucketed as ["Unknown"]. *)
Theorem generalize_age_float_vs_string w :
  generalize_age (PyFloat float_25_9) w = (inr "18-25", w) ∧
  generalize_age (PyStr "25.9") w =
    (inr "Unknown",
     World (w_rng w)
       (w_log w ++ [(ERROR, "Invalid age value: 25.9.  Returning 'Unknown'")])
       (w_files w)) ∧
  Py.int (PyFloat float_25_9) = inr 25 ∧
  ∀ sgn m e,
    ∃ z, Py.int (PyFloat (S754_finite sgn m e)) = inr z ∧
         Z.abs z * 2 ^ Z.max 0 (- e) ≤ Z.pos m * 2 ^ Z.max 0 e
           < (Z.abs z + 1) * 2 ^ Z.max 0 (- e) ∧
         (if sgn then z ≤ 0 else 0 ≤ z).
Proof.
  split; [by rewrite (generalize_age_converted _ 25)|].
  split; [by erewrite generalize_age_ValueError|].
  split; [done|].
  intros sgn m e. exists (trunc_float sgn m e). split; [done|].
  apply trunc_float_spec.
Qed.

(** *** The job-title mapper *)

Lemma JOB_TITLE_MAPPING_lookup k v :
  JOB_TITLE_MAPPING !! k = Some v ↔
  (k, v) ∈ [("Software Engineer", "Engineer");
            ("Data Scientist", "Data Analyst");
            ("Project Manager", "Manager");
            ("Accountant", "Finance Professional");
            ("Teacher", "Educator");
            ("Nurse", "Healthcare Professional");
            ("Doctor", "Healthcare Professional");
            ("Lawyer", "Legal Professional");
            ("Sales Representative", "Sales Professional");
            ("Marketing Manager", "Marketing Professional")].
Proof.
  unfold JOB_TITLE_MAPPING. symmetry. apply elem_of_list_to_map.
  cbn [fmap list_fmap fst]. by apply (bool_decide_unpack _).
Qed.

Lemma JOB_TITLE_MAPPING_values k v :
  JOB_TITLE_MAPPING !! k = Some v →
  v ≠ EmptyString ∧ JOB_TITLE_MAPPING !! v = None.
Proof.
  intros Hk%JOB_TITLE_MAPPING_lookup.
  repeat (apply elem_of_cons in Hk as [[= -> ->]|Hk]; [by vm_compute|]).
  by apply elem_of_nil in Hk.
Qed.

(** C7.  [generalize_job_title] returns the mapped value for every key of
    [JOB_TITLE_MAPPING] and its argument for every other string; a non-empty
    title is never mapped to the empty string. *)
Theorem generalize_job_title_law (k : string) :
  (∀ v, JOB_TITLE_MAPPING !! k = Some v → generalize_job_title k = v) ∧
  (JOB_TITLE_MAPPING !! k = None → generalize_job_title k = k) ∧
  (k ≠ EmptyString → generalize_job_title k ≠ EmptyString).
Proof.
  unfold generalize_job_title. split; [|split].
  - by intros v ->.
  - by intros ->.
  - destruct (JOB_TITLE_MAPPING !! k) as [v|] eqn:Hk; [|done].
    intros _. by apply JOB_TITLE_MAPPING_values in Hk as [? _].
Qed.

Lemma generalize_job_title_idemp k :
  generalize_job_title (generalize_job_title k) = generalize_job_title k.
Proof.
  unfold generalize_job_title at 2 3.
  destruct (JOB_TITLE_MAPPING !! k) as [v|] eqn:Hk.
  - apply JOB_TITLE_MAPPING_values in Hk as [_ Hv].
    unfold generalize_job_title. by rewrite Hv.
  - unfold generalize_job_title. by rewrite Hk.
Qed.

(** *** The region resolver *)

Lemma generalize_city_to_state_run city w :
  generalize_city_to_state city w =
    match fake_state (w_rng w) with
    | (inr (Drawn state), g) =>
        (inr (PyStr state), World g (w_log w) (w_files w))
    | (inr (NotBuilt e), g) => (inl e, World g (w_log w) (w_files w))
    | (inl e, g) =>
        (inr PyNone,
         World g
           (w_log w ++ [(ERROR, "Failed to generalize city " +:+ city
                                  +:+ " to state: " +:+ exn_msg e)])
           (w_files w))
    end.
Proof.
  unfold generalize_city_to_state, try_except, mbind, M_bind, bind,
    Faker_new, Faker_state.
  by destruct (fake_state (w_rng w)) as [[e|[state|e]] g].
Qed.


(** *** Tables *)

Lemma columns_head n df : columns (head n df) = columns df.
Proof.
  unfold columns, head. rewrite <- list_fmap_compose.
  apply list_fmap_ext. by intros ? [].
Qed.

Lemma get_column_head c n df :
  get_column c (head n df) = head_series n <$> get_column c df.
Proof.
  induction df as [|[c' s] df IH]; simpl; [done|].
  by destruct (decide (c' = c)).
Qed.

Lemma has_column_get c df :
  has_column c df = true ↔ is_Some (get_column c df).
Proof.
  unfold has_column, columns. rewrite bool_decide_eq_true.
  induction df as [|[c' s] df IH]; simpl.
  - split; [by intros ?%elem_of_nil | by intros [? ?]].
  - rewrite elem_of_cons. destruct (decide (c' = c)) as [->|Hne]; simpl.
    + split; eauto.
    + rewrite <- IH. split; [intros [?|?]; [congruence|done] | eauto].
Qed.

Lemma has_column_elem c df : has_column c df = true ↔ c ∈ columns df.
Proof. unfold has_column. apply bool_decide_eq_true. Qed.

Lemma columns_set_column c s df :
  c ∈ columns df → columns (set_column c s df) = columns df.
Proof.
  unfold columns. induction df as [|[c' s'] df IH]; simpl.
  - by intros ?%elem_of_nil.
  - destruct (decide (c' = c)) as [->|Hne]; simpl; [done|].
    intros [?|?]%elem_of_cons; [congruence|]. f_equal. by apply IH.
Qed.

Lemma get_column_set_column c s df :
  get_column c (set_column c s df) = Some s.
Proof.
  induction df as [|[c' s'] df IH]; simpl.
  - by rewrite decide_True.
  - destruct (decide (c' = c)) as [->|Hne]; simpl.
    + by rewrite decide_True.
    + by rewrite decide_False.
Qed.

Lemma get_column_set_column_ne c c' s df :
  c ≠ c' → get_column c' (set_column c s df) = get_column c' df.
Proof.
  intros Hne. induction df as [|[c1 s1] df IH]; simpl.
  - by rewrite decide_False.
  - destruct (decide (c1 = c)) as [->|Hne1]; simpl.
    + by rewrite !decide_False.
    + by rewrite IH.
Qed.

Lemma set_column_twice c s s' df :
  set_column c s (set_column c s' df) = set_column c s df.
Proof.
  induction df as [|[c1 s1] df IH]; simpl.
  - by rewrite decide_True.
  - destruct (decide (c1 = c)) as [->|Hne]; simpl.
    + by rewrite decide_True.
    + by rewrite decide_False, IH.
Qed.

Lemma head_set_column n c s df :
  c ∈ columns df →
  head n (set_column c s df) = set_column c (head_series n s) (head n df).
Proof.
  unfold columns. induction df as [|[c1 s1] df IH]; simpl.
  - by intros ?%elem_of_nil.
  - destruct (decide (c1 = c)) as [->|Hne]; simpl; [done|].
    intros [?|?]%elem_of_cons; [congruence|].
    unfold head in *. simpl. f_equal. by apply IH.
Qed.

Lemma head_series_length n s :
  Z.of_nat (length (head_series n s)) =
    if 0 <=? n then Z.min n (Z.of_nat (length s))
    else Z.max 0 (Z.of_nat (length s) + n).
Proof.
  unfold head_series. destruct (Z.leb_spec 0 n); rewrite length_take; lia.
Qed.

Lemma head_series_prefix n s : head_series n s `prefix_of` s.
Proof.
  unfold head_series. destruct (0 <=? n); eexists; symmetry; apply take_drop.
Qed.

Lemma head_series_idemp n s :
  0 ≤ n → head_series n (head_series n s) = head_series n s.
Proof.
  intros Hn. unfold head_series. destruct (Z.leb_spec 0 n); [|lia].
  by rewrite take_take, Nat.min_id.
Qed.

Lemma head_series_fmap n (f : value → value) s :
  head_series n (f <$> s) = f <$> head_series n s.
Proof.
  unfold head_series. rewrite length_fmap.
  destruct (0 <=? n); by rewrite fmap_take.
Qed.

Lemma head_idemp n df : 0 ≤ n → head n (head n df) = head n df.
Proof.
  intros Hn. unfold head. rewrite <- list_fmap_compose.
  apply list_fmap_ext. intros ? [c s]. simpl. unfold prod_map; simpl.
  by rewrite head_series_idemp.
Qed.

Lemma nrows_head n df :
  Z.of_nat (nrows (head n df)) =
    if 0 <=? n then Z.min n (Z.of_nat (nrows df))
    else Z.max 0 (Z.of_nat (nrows df) + n).
Proof.
  destruct df as [|[c s] df]; simpl.
  - destruct (Z.leb_spec 0 n); lia.
  - apply head_series_length.
Qed.

(** *** Worlds and column stages *)

Lemma extends_refl w : extends w w.
Proof. split; [done|]. exists []. by rewrite app_nil_r. Qed.

Lemma extends_trans w1 w2 w3 : extends w1 w2 → extends w2 w3 → extends w1 w3.
Proof.
  intros [Hf1 [l1 Hl1]] [Hf2 [l2 Hl2]]. split; [congruence|].
  exists (l1 ++ l2). by rewrite Hl2, Hl1, app_assoc.
Qed.

Lemma generalize_age_extends v w r w' :
  generalize_age v w = (r, w') → extends w w'.
Proof.
  destruct (Py.int v) as [e|age] eqn:Hint.
  - destruct (is_ValueError e) eqn:He.
    + destruct e; try done. rewrite (generalize_age_ValueError _ _ _ Hint).
      intros [= <- <-]. split; simpl; eauto.
    + rewrite (generalize_age_uncaught _ _ _ Hint He).
      intros [= <- <-]. apply extends_refl.
  - rewrite (generalize_age_converted _ _ _ Hint).
    intros [= <- <-]. apply extends_refl.
Qed.

Lemma generalize_city_to_state_extends city w r w' :
  generalize_city_to_state city w = (r, w') → extends w w'.
Proof.
  rewrite generalize_city_to_state_run.
  destruct (fake_state (w_rng w)) as [[e|[state|e]] g]; intros [= <- <-];
    split; simpl; eauto; exists []; by rewrite app_nil_r.
Qed.

Lemma apply_extends {A B} (f : A → M B) (l : list A) w r w' :
  (∀ x w1 r1 w2, f x w1 = (r1, w2) → extends w1 w2) →
  apply f l w = (r, w') → extends w w'.
Proof.
  intros Hf. revert w r w'. induction l as [|x l IH]; intros w r w'; simpl.
  - intros [= <- <-]. apply extends_refl.
  - unfold mbind, M_bind, bind.
    destruct (f x w) as [[e|y] w1] eqn:Hx.
    + intros [= <- <-]. eauto.
    + destruct (apply f l w1) as [[e|ys] w2] eqn:Hl; intros [= <- <-];
        eapply extends_trans; eauto.
Qed.

Lemma apply_length {A B} (f : A → M B) (l : list A) w l' w' :
  apply f l w = (inr l', w') → length l' = length l.
Proof.
  revert w l' w'. induction l as [|x l IH]; intros w l' w'; simpl.
  - by intros [= <- <-].
  - unfold mbind, M_bind, bind.
    destruct (f x w) as [[e|y] w1]; [done|].
    destruct (apply f l w1) as [[e|ys] w2] eqn:Hl; [done|].
    intros [= <- <-]. simpl. f_equal. eauto.
Qed.

Lemma apply_returns {A B} (f : A → M B) (l : list A) w :
  (∀ x w1, x ∈ l → ∃ y w2, f x w1 = (inr y, w2)) →
  ∃ l' w', apply f l w = (inr l', w').
Proof.
  revert w. induction l as [|x l IH]; intros w Hf; simpl; [by eexists _, _|].
  unfold mbind, M_bind, bind.
  destruct (Hf x w) as (y & w1 & ->); [by left|].
  destruct (IH w1) as (ys & w2 & ->); [|by eexists _, _].
  intros x' w' Hx'. apply Hf. by right.
Qed.

Lemma job_title_stage_run args df w :
  job_title_stage args df w =
    match given (job_title_column args) with
    | Some c =>
        match get_column c df with
        | Some s =>
            (inr (set_column c
                    ((λ v, PyStr (generalize_job_title (Py.str v))) <$> s) df),
             w)
        | None =>
            (inl (ValueError
                    ("Job title column '" +:+ c +:+ "' not found in input file.")),
             w)
        end
    | None => (inr df, w)
    end.
Proof.
  unfold job_title_stage. destruct (given _) as [c|]; [|done].
  destruct (has_column c df) eqn:Hc; simpl.
  - apply has_column_get in Hc as [s Hs]. unfold getitem. rewrite Hs.
    unfold mbind, M_bind, bind; simpl. by rewrite <- list_fmap_compose.
  - destruct (get_column c df) as [s|] eqn:Hs; [|done].
    assert (has_column c df = true) by (apply has_column_get; eauto).
    congruence.
Qed.

Lemma age_stage_run args df w :
  age_stage args df w =
    match given (age_column args) with
    | Some c =>
        match get_column c df with
        | Some s =>
            match apply (λ v, label ← generalize_age v; mret (PyStr label)) s w with
            | (inr s', w') => (inr (set_column c s' df), w')
            | (inl e, w') => (inl e, w')
            end
        | None =>
            (inl (ValueError
                    ("Age column '" +:+ c +:+ "' not found in input file.")),
             w)
        end
    | None => (inr df, w)
    end.
Proof.
  unfold age_stage. destruct (given _) as [c|]; [|done].
  destruct (has_column c df) eqn:Hc; simpl.
  - apply has_column_get in Hc as [s Hs]. unfold getitem. rewrite Hs.
    unfold mbind at 1, M_bind at 1, bind at 1; simpl.
    unfold mbind at 1, M_bind at 1, bind at 1.
    by destruct (apply _ s w) as [[e|s'] w'].
  - destruct (get_column c df) as [s|] eqn:Hs; [|done].
    assert (has_column c df = true) by (apply has_column_get; eauto).
    congruence.
Qed.

Lemma city_stage_run args df w :
  city_stage args df w =
    match given (city_column args) with
    | Some c =>
        match get_column c df with
        | Some s =>
            match apply generalize_city_to_state (Py.str <$> s) w with
            | (inr s', w') => (inr (set_column c s' df), w')
            | (inl e, w') => (inl e, w')
            end
        | None =>
            (inl (ValueError
                    ("City column '" +:+ c +:+ "' not found in input file.")),
             w)
        end
    | None => (inr df, w)
    end.
Proof.
  unfold city_stage. destruct (given _) as [c|]; [|done].
  destruct (has_column c df) eqn:Hc; simpl.
  - apply has_column_get in Hc as [s Hs]. unfold getitem. rewrite Hs.
    unfold mbind at 1, M_bind at 1, bind at 1; simpl.
    unfold mbind at 1, M_bind at 1, bind at 1.
    by destruct (apply _ _ w) as [[e|s'] w'].
  - destruct (get_column c df) as [s|] eqn:Hs; [|done].
    assert (has_column c df = true) by (apply has_column_get; eauto).
    congruence.
Qed.

(** What a stage that returns has done: nothing, or replaced the one column
    its option names, which the table has. *)
Lemma job_title_stage_inr args df w df' w' :
  job_title_stage args df w = (inr df', w') →
  w' = w ∧
  ((given (job_title_column args) = None ∧ df' = df) ∨
   (∃ c s, given (job_title_column args) = Some c ∧ get_column c df = Some s ∧
           df' = set_column c
                   ((λ v, PyStr (generalize_job_title (Py.str v))) <$> s) df)).
Proof.
  rewrite job_title_stage_run. destruct (given _) as [c|].
  - destruct (get_column c df) as [s|] eqn:Hs; [|done].
    intros [= <- <-]. split; [done|]. right. by exists c, s.
  - intros [= <- <-]. split; [done|]. by left.
Qed.

Lemma age_stage_inr args df w df' w' :
  age_stage args df w = (inr df', w') →
  (given (age_column args) = None ∧ df' = df) ∨
  (∃ c s s', given (age_column args) = Some c ∧ get_column c df = Some s ∧
             length s' = length s ∧ df' = set_column c s' df).
Proof.
  rewrite age_stage_run. destruct (given _) as [c|].
  - destruct (get_column c df) as [s|] eqn:Hs; [|done].
    destruct (apply _ s w) as [[e|s'] w1] eqn:Happ; [done|].
    intros [= <- <-]. right. exists c, s, s'.
    repeat split; try done. by eapply apply_length.
  - intros [= <- <-]. by left.
Qed.

Lemma city_stage_inr args df w df' w' :
  city_stage args df w = (inr df', w') →
  (given (city_column args) = None ∧ df' = df) ∨
  (∃ c s s', given (city_column args) = Some c ∧ get_column c df = Some s ∧
             length s' = length s ∧ df' = set_column c s' df).
Proof.
  rewrite city_stage_run. destruct (given _) as [c|].
  - destruct (get_column c df) as [s|] eqn:Hs; [|done].
    destruct (apply _ _ w) as [[e|s'] w1] eqn:Happ; [done|].
    intros [= <- <-]. right. exists c, s, s'.
    repeat split; try done. apply apply_length in Happ.
    by rewrite length_fmap in Happ.
  - intros [= <- <-]. by left.
Qed.

Lemma get_column_elem c s df : get_column c df = Some s → c ∈ columns df.
Proof. intros Hs. apply has_column_elem, has_column_get. eauto. Qed.

(** The frame of one column assignment. *)
Lemma set_column_frame c s s' df :
  get_column c df = Some s →
  columns (set_column c s' df) = columns df ∧
  ∀ c', c' ≠ c → get_column c' (set_column c s' df) = get_column c' df.
Proof.
  intros Hs. split.
  - by eapply columns_set_column, get_column_elem.
  - intros c' Hne. by apply get_column_set_column_ne.
Qed.

Lemma transform_inr args df w df' w' :
  transform args df w = (inr df', w') →
  ∃ df1 df2 w1,
    job_title_stage args (limit_rows args df) w = (inr df1, w) ∧
    age_stage args df1 w = (inr df2, w1) ∧
    city_stage args df2 w1 = (inr df', w').
Proof.
  unfold transform, mbind, M_bind, bind.
  destruct (job_title_stage _ _ w) as [[e|df1] w0] eqn:Hjob; [done|].
  destruct (job_title_stage_inr _ _ _ _ _ Hjob) as [-> _].
  destruct (age_stage args df1 w) as [[e|df2] w1] eqn:Hage; [done|].
  intros Hcity. by exists df1, df2, w1.
Qed.

Lemma columns_limit_rows args df : columns (limit_rows args df) = columns df.
Proof. unfold limit_rows. destruct (num_rows args); [apply columns_head|done]. Qed.

Lemma get_column_limit_rows args c df s :
  get_column c df = Some s →
  ∃ s', get_column c (limit_rows args df) = Some s' ∧ s' `prefix_of` s ∧
        (num_rows args = None → s' = s).
Proof.
  intros Hs. unfold limit_rows. destruct (num_rows args) as [n|].
  - rewrite get_column_head, Hs. eexists; split; [done|].
    split; [apply head_series_prefix|done].
  - by exists s.
Qed.

Lemma job_title_stage_frame args df w df' w' :
  job_title_stage args df w = (inr df', w') →
  columns df' = columns df ∧
  ∀ c, given (job_title_column args) ≠ Some c →
       get_column c df' = get_column c df.
Proof.
  intros [_ [[_ ->]|(c0 & s & Hg & Hs & ->)]]%job_title_stage_inr; [done|].
  destruct (set_column_frame c0 s
              ((λ v, PyStr (generalize_job_title (Py.str v))) <$> s) df Hs)
    as [Hcols Hget].
  split; [done|]. intros c Hne. apply Hget. congruence.
Qed.

Lemma age_stage_frame args df w df' w' :
  age_stage args df w = (inr df', w') →
  columns df' = columns df ∧
  ∀ c, given (age_column args) ≠ Some c → get_column c df' = get_column c df.
Proof.
  intros [[_ ->]|(c0 & s & s' & Hg & Hs & _ & ->)]%age_stage_inr; [done|].
  destruct (set_column_frame c0 s s' df Hs) as [Hcols Hget].
  split; [done|]. intros c Hne. apply Hget. congruence.
Qed.

Lemma city_stage_frame args df w df' w' :
  city_stage args df w = (inr df', w') →
  columns df' = columns df ∧
  ∀ c, given (city_column args) ≠ Some c → get_column c df' = get_column c df.
Proof.
  intros [[_ ->]|(c0 & s & s' & Hg & Hs & _ & ->)]%city_stage_inr; [done|].
  destruct (set_column_frame c0 s s' df Hs) as [Hcols Hget].
  split; [done|]. intros c Hne. apply Hget. congruence.
Qed.

(** C6.  When [transform] returns, the table has the columns of the input,
    in the same order, and every column that no option names holds exactly
    the cells of the input column, row by row, cut to the row limit if there
    is one. *)
Theorem transform_frame args df w df' w' :
  transform args df w = (inr df', w') →
  columns df' = columns df ∧
  ∀ c,
    given (job_title_column args) ≠ Some c →
    given (age_column args) ≠ Some c →
    given (city_column args) ≠ Some c →
    get_column c df' = get_column c (limit_rows args df) ∧
    ∀ s, get_column c df = Some s →
         ∃ s', get_column c df' = Some s' ∧ s' `prefix_of` s ∧
               (∀ i v, s' !! i = Some v → s !! i = Some v) ∧
               (num_rows args = None → s' = s).
Proof.
  intros (df1 & df2 & w1 & Hjob & Hage & Hcity)%transform_inr.
  apply job_title_stage_frame in Hjob as [Hcols1 Hget1].
  apply age_stage_frame in Hage as [Hcols2 Hget2].
  apply city_stage_frame in Hcity as [Hcols3 Hget3].
  split.
  - by rewrite Hcols3, Hcols2, Hcols1, columns_limit_rows.
  - intros c Hj Ha Hc.
    rewrite (Hget3 c Hc), (Hget2 c Ha), (Hget1 c Hj). split; [done|].
    intros s Hs.
    destruct (get_column_limit_rows args c df s Hs) as (s' & Hs' & Hpre & Hall).
    exists s'. repeat split; try done.
    intros i v Hi. destruct Hpre as [k ->]. by apply lookup_app_l_Some.
Qed.

Lemma transform_job_only args df w :
  given (age_column args) = None → given (city_column args) = None →
  transform args df w = job_title_stage args (limit_rows args df) w.
Proof.
  intros Ha Hc. unfold transform, mbind, M_bind, bind.
  destruct (job_title_stage _ _ w) as [[e|df1] w1]; [done|].
  unfold age_stage, city_stage. by rewrite Ha, Hc.
Qed.

(** C3.  With only a row limit [n] set, [transform] returns
    [df.head(n)] and touches nothing else: every column is a prefix of the
    input column, in order; it has [min(n, len)] rows when [n >= 0], hence all
    rows when [n] exceeds the row count, and [max(0, len + n)] rows when [n]
    is negative. *)
Theorem transform_row_limit (input output : string) (n : Z) df w :
  let args := {| input_file := input; output_file := output;
                 job_title_column := None; age_column := None;
                 city_column := None; num_rows := Some n |} in
  transform args df w = (inr (head n df), w) ∧
  columns (head n df) = columns df ∧
  (∀ c s, get_column c df = Some s →
     ∃ s', get_column c (head n df) = Some s' ∧ s' `prefix_of` s ∧
           Z.of_nat (length s') =
             if 0 <=? n then Z.min n (Z.of_nat (length s))
             else Z.max 0 (Z.of_nat (length s) + n)) ∧
  Z.of_nat (nrows (head n df)) =
    (if 0 <=? n then Z.min n (Z.of_nat (nrows df))
     else Z.max 0 (Z.of_nat (nrows df) + n)).
Proof.
  intros args. split; [by rewrite transform_job_only|].
  split; [apply columns_head|]. split; [|apply nrows_head].
  intros c s Hs. exists (head_series n s). rewrite get_column_head, Hs.
  split; [done|]. split; [apply head_series_prefix|apply head_series_length].
Qed.


(** C5.  With no age column and no city column named, and a
    row limit that is absent or not negative, a second [transform] of the
    table a first one returned returns it unchanged. *)
Theorem transform_idempotent_job_title args df w df1 w1 :
  given (age_column args) = None →
  given (city_column args) = None →
  (∀ n, num_rows args = Some n → 0 ≤ n) →
  transform args df w = (inr df1, w1) →
  transform args df1 w1 = (inr df1, w1).
Proof.
  intros Ha Hc Hn. rewrite !transform_job_only by done.
  intros Hrun. destruct (job_title_stage_inr _ _ _ _ _ Hrun) as [-> Hres].
  clear Hrun. rewrite job_title_stage_run.
  assert (Hlimit : ∀ d, limit_rows args (limit_rows args d) = limit_rows args d).
  { intros d. unfold limit_rows. destruct (num_rows args) as [n|]; [|done].
    apply head_idemp. by apply Hn. }
  destruct Hres as [[-> ->]|(c & s & -> & Hs & ->)].
  - by rewrite Hlimit.
  - set (f := λ v, PyStr (generalize_job_title (Py.str v))).
    assert (Hlim1 : limit_rows args (set_column c (f <$> s) (limit_rows args df))
                    = set_column c (f <$> s) (limit_rows args df)).
    { unfold limit_rows in *. destruct (num_rows args) as [n|]; [|done].
      rewrite head_set_column by by eapply get_column_elem.
      rewrite head_idemp by by apply Hn. f_equal.
      rewrite get_column_head in Hs.
      destruct (get_column c df) as [s0|]; [|done].
      injection Hs as <-. rewrite head_series_fmap.
      rewrite head_series_idemp by by apply Hn. done. }
    rewrite Hlim1, get_column_set_column, set_column_twice.
    replace (f <$> (f <$> s)) with (f <$> s); [done|].
    rewrite <- list_fmap_compose.
    apply list_fmap_ext. intros i v _. unfold f; simpl.
    by rewrite generalize_job_title_idemp.
Qed.

(** *** The run *)

Lemma main_run read_csv args df w :
  read_csv (input_file args) = inr df →
  main read_csv args w =
    match transform args df w with
    | (inr df', w') =>
        match write_error (output_file args) df' with
        | None =>
            (inr (),
             World (w_rng w')
               (w_log w' ++
                  [(INFO, "Data generalization complete. Output written to "
                            +:+ output_file args)])
               (w_files w' ++ [(output_file args, df')]))
        | Some e =>
            (inr (),
             World (w_rng w')
               (w_log w' ++
                  [(ERROR,
                    match e with
                    | FileNotFoundError _ =>
                        "Input file not found: " +:+ input_file args
                    | ValueError msg => "ValueError: " +:+ msg
                    | _ => "An unexpected error occurred: " +:+ exn_msg e
                    end)])
               (w_files w'))
        end
    | (inl e, w') =>
        (inr (),
         World (w_rng w')
           (w_log w' ++
              [(ERROR,
                match e with
                | FileNotFoundError _ =>
                    "Input file not found: " +:+ input_file args
                | ValueError msg => "ValueError: " +:+ msg
                | _ => "An unexpected error occurred: " +:+ exn_msg e
                end)])
           (w_files w'))
    end.
Proof.
  intros Hread. unfold main, try_except, mbind, M_bind, bind, to_csv.
  rewrite Hread; simpl.
  destruct (transform args df w) as [[e|df'] w']; [by destruct e|].
  destruct (write_error (output_file args) df') as [e|]; [|done].
  by destruct e; destruct w'.
Qed.

(** [main] catches every exception: the script always exits with status 0. *)
Lemma main_exit_status read_csv args w :
  (main read_csv args w).1 = inr () ∧ exit_status (main read_csv args w) = 0.
Proof.
  destruct (read_csv (input_file args)) as [e|df] eqn:Hread.
  - unfold exit_status, main, try_except, mbind, M_bind, bind.
    rewrite Hread. by destruct e.
  - unfold exit_status. rewrite (main_run _ _ _ _ Hread).
    destruct (transform args df w) as [[e|df'] w']; [done|].
    by destruct (write_error (output_file args) df').
Qed.

Lemma age_cell_extends v w r w' :
  (label ← generalize_age v; mret (PyStr label)) w = (r, w') → extends w w'.
Proof.
  unfold mbind, M_bind, bind.
  destruct (generalize_age v w) as [[e|label] w1] eqn:Hage;
    intros [= <- <-]; by eapply generalize_age_extends.
Qed.

Lemma age_stage_extends args df w r w' :
  age_stage args df w = (r, w') → extends w w'.
Proof.
  rewrite age_stage_run. destruct (given _) as [c|].
  - destruct (get_column c df) as [s|].
    + destruct (apply _ s w) as [[e|s'] w1] eqn:Happ; intros [= <- <-];
        (eapply apply_extends; [|exact Happ]);
        intros x w2 r2 w3 Hx; exact (age_cell_extends _ _ _ _ Hx).
    + intros [= <- <-]. apply extends_refl.
  - intros [= <- <-]. apply extends_refl.
Qed.

Lemma city_stage_extends args df w r w' :
  city_stage args df w = (r, w') → extends w w'.
Proof.
  rewrite city_stage_run. destruct (given _) as [c|].
  - destruct (get_column c df) as [s|].
    + destruct (apply _ _ w) as [[e|s'] w1] eqn:Happ; intros [= <- <-];
        (eapply apply_extends; [|exact Happ]);
        intros x w2 r2 w3 Hx; exact (generalize_city_to_state_extends _ _ _ _ Hx).
    + intros [= <- <-]. apply extends_refl.
  - intros [= <- <-]. apply extends_refl.
Qed.

Lemma job_title_stage_world args df w r w' :
  job_title_stage args df w = (r, w') → w' = w.
Proof.
  rewrite job_title_stage_run. destruct (given _) as [c|].
  - by destruct (get_column c df); intros [= <- <-].
  - by intros [= <- <-].
Qed.

Lemma transform_extends args df w r w' :
  transform args df w = (r, w') → extends w w'.
Proof.
  unfold transform, mbind, M_bind, bind.
  destruct (job_title_stage _ _ w) as [[e|df1] w0] eqn:Hjob;
    apply job_title_stage_world in Hjob as ->.
  { intros [= <- <-]. apply extends_refl. }
  destruct (age_stage args df1 w) as [[e|df2] w1] eqn:Hage;
    apply age_stage_extends in Hage.
  { by intros [= <- <-]. }
  intros Hcity%city_stage_extends. by eapply extends_trans.
Qed.

Lemma get_column_None c df : c ∉ columns df → get_column c df = None.
Proof.
  intros Hc. destruct (get_column c df) as [s|] eqn:Hs; [|done].
  by apply get_column_elem in Hs.
Qed.

(** A named column the table lacks makes [transform] raise. *)
Lemma transform_missing args df w c :
  c ∉ columns df →
  given (job_title_column args) = Some c ∨ given (age_column args) = Some c
    ∨ given (city_column args) = Some c →
  ∃ e w', transform args df w = (inl e, w').
Proof.
  intros Hc Hnamed. unfold transform, mbind, M_bind, bind.
  destruct (job_title_stage _ _ w) as [[e|df1] w0] eqn:Hjob; [by eauto|].
  pose proof (job_title_stage_frame _ _ _ _ _ Hjob) as [Hcols1 _].
  rewrite columns_limit_rows in Hcols1.
  destruct (age_stage args df1 w0) as [[e|df2] w1] eqn:Hage; [by eauto|].
  pose proof (age_stage_frame _ _ _ _ _ Hage) as [Hcols2 _].
  rewrite job_title_stage_run in Hjob. rewrite age_stage_run in Hage.
  rewrite city_stage_run.
  destruct Hnamed as [Hg|[Hg|Hg]].
  - rewrite Hg, get_column_None in Hjob; [done|].
    by rewrite columns_limit_rows.
  - rewrite Hg, get_column_None in Hage; [done|]. congruence.
  - rewrite Hg, get_column_None; [by eauto|]. congruence.
Qed.

Lemma escapes_PyStr x : escapes (PyStr x) = false.
Proof. unfold escapes; simpl. by destruct (int_of_str x). Qed.

Lemma head_series_elem v n s : v ∈ head_series n s → v ∈ s.
Proof.
  intros Hv. destruct (head_series_prefix n s) as [k Hk].
  rewrite Hk. apply elem_of_app. by left.
Qed.

Lemma age_stage_returns args df w :
  (∀ ca, given (age_column args) = Some ca →
         ∃ s, get_column ca df = Some s ∧ ∀ v, v ∈ s → escapes v = false) →
  ∃ df' w', age_stage args df w = (inr df', w').
Proof.
  intros Hok. rewrite age_stage_run.
  destruct (given (age_column args)) as [ca|]; [|by eauto].
  destruct (Hok ca eq_refl) as (s & -> & Hs).
  destruct (apply_returns (λ v, label ← generalize_age v; mret (PyStr label)) s w)
    as (s' & w' & ->); [|by eauto].
  intros v w1 Hv. unfold mbind, M_bind, bind.
  destruct (generalize_age_returns v w1 (Hs v Hv)) as (label & log & ->).
  by eexists _, _.
Qed.

Lemma job_title_stage_convertible args df df1 w w1 ca :
  job_title_stage args (limit_rows args df) w = (inr df1, w1) →
  (∃ s, get_column ca df = Some s ∧ ∀ v, v ∈ s → escapes v = false) →
  ∃ s1, get_column ca df1 = Some s1 ∧ ∀ v, v ∈ s1 → escapes v = false.
Proof.
  intros Hjob (s & Hs & Hok).
  destruct (get_column_limit_rows args ca df s Hs) as (s' & Hs' & Hpre & _).
  assert (Hok' : ∀ v, v ∈ s' → escapes v = false).
  { intros v Hv. apply Hok. destruct Hpre as [k ->].
    apply elem_of_app. by left. }
  apply job_title_stage_inr in Hjob as [_ [[_ ->]|(cj & sj & _ & Hsj & ->)]].
  - by exists s'.
  - destruct (decide (cj = ca)) as [->|Hne].
    + rewrite get_column_set_column. eexists; split; [done|].
      intros v (v0 & -> & _)%list_elem_of_fmap. apply escapes_PyStr.
    + rewrite get_column_set_column_ne by done. by exists s'.
Qed.

(** C4.  When the input loads and a named, non-empty option
    column is absent from its header, [main] returns normally, so the exit
    status is 0; it writes no file and its last log record is an error.  The
    record is the [ValueError] that names the column when the column is the
    job-title one, or the age one with the job-title column present or not
    named, or the city one with the other two present or not named and no
    age cell that makes [generalize_age] raise. *)
Theorem main_column_not_found read_csv args df c w :
  read_csv (input_file args) = inr df →
  c ∉ columns df →
  given (job_title_column args) = Some c ∨ given (age_column args) = Some c
    ∨ given (city_column args) = Some c →
  let r := main read_csv args w in
  r.1 = inr () ∧ exit_status r = 0 ∧ w_files r.2 = w_files w ∧
  (∃ log msg, w_log r.2 = w_log w ++ log ++ [(ERROR, msg)]) ∧
  (given (job_title_column args) = Some c →
   w_log r.2 =
     w_log w ++ [(ERROR, "ValueError: Job title column '" +:+ c
                           +:+ "' not found in input file.")]) ∧
  (given (age_column args) = Some c →
   (∀ cj, given (job_title_column args) = Some cj → cj ∈ columns df) →
   w_log r.2 =
     w_log w ++ [(ERROR, "ValueError: Age column '" +:+ c
                           +:+ "' not found in input file.")]) ∧
  (given (city_column args) = Some c →
   (∀ cj, given (job_title_column args) = Some cj → cj ∈ columns df) →
   (∀ ca, given (age_column args) = Some ca →
          ∃ s, get_column ca df = Some s ∧ ∀ v, v ∈ s → escapes v = false) →
   ∃ log,
     w_log r.2 =
       w_log w ++ log ++ [(ERROR, "ValueError: City column '" +:+ c
                                    +:+ "' not found in input file.")]).
Proof.
  intros Hread Hc Hnamed r.
  destruct (main_exit_status read_csv args w) as [Hret Hexit].
  split; [done|]. split; [done|].
  assert (Hlim : c ∉ columns (limit_rows args df))
    by by rewrite columns_limit_rows.
  assert (Hjobok :
    (∀ cj, given (job_title_column args) = Some cj → cj ∈ columns df) →
    ∃ df1, job_title_stage args (limit_rows args df) w = (inr df1, w)).
  { intros Hok. rewrite job_title_stage_run.
    destruct (given (job_title_column args)) as [cj|]; [|by eauto].
    specialize (Hok cj eq_refl). rewrite <- (columns_limit_rows args) in Hok.
    apply has_column_elem, has_column_get in Hok as [s ->]. eauto. }
  subst r. rewrite (main_run _ _ _ _ Hread).
  destruct (transform_missing args df w c Hc Hnamed) as (e & w' & Hrun).
  pose proof (transform_extends _ _ _ _ _ Hrun) as [Hfiles [log Hlog]].
  rewrite Hrun; simpl. split; [done|]. split.
  { rewrite Hlog, <- app_assoc. eauto. }
  unfold transform, mbind, M_bind, bind in Hrun.
  split; [|split].
  - intros Hg. rewrite job_title_stage_run, Hg, get_column_None in Hrun by done.
    by injection Hrun as <- <-.
  - intros Hg [df1 Hjob]%Hjobok. rewrite Hjob in Hrun.
    apply job_title_stage_frame in Hjob as [Hcols1 _].
    rewrite age_stage_run, Hg, get_column_None in Hrun by congruence.
    by injection Hrun as <- <-.
  - intros Hg [df1 Hjob]%Hjobok Hcells. rewrite Hjob in Hrun.
    destruct (age_stage_returns args df1 w) as (df2 & w1 & Hage).
    { intros ca Hca. eapply job_title_stage_convertible; eauto. }
    rewrite Hage in Hrun.
    apply job_title_stage_frame in Hjob as [Hcols1 _].
    pose proof (age_stage_extends _ _ _ _ _ Hage) as [_ [log1 Hlog1]].
    apply age_stage_frame in Hage as [Hcols2 _].
    rewrite city_stage_run, Hg, get_column_None in Hrun by congruence.
    injection Hrun as <- <-. exists log1. by rewrite Hlog1, <- app_assoc.
Qed.

End Properties.

(** ** Further properties of the mappers and of the run *)

Section Further.
Context {repr : FloatRepr} {unicode : UnicodeInt} {faker : Faker} {disk : Disk}.
Implicit Types (w : world) (df : DataFrame) (s : Series) (c : string).

(** *** The age bucketer *)

Lemma bucket_label age : bucket age ∈ AGE_LABELS.
Proof.
  unfold bucket. destruct (negb _); [by vm_compute; repeat constructor|].
  destruct (scan_ranges AGE_RANGES age) as [label|] eqn:Hscan;
    [|by vm_compute; repeat constructor].
  apply scan_ranges_Some in Hscan as (i & lo & hi & Hi & _ & -> & _).
  unfold AGE_LABELS. apply elem_of_app. left.
  apply list_elem_of_fmap. exists (lo, hi). split; [done|].
  by eapply list_elem_of_lookup_2.
Qed.

Lemma bucket_band age : 18 ≤ age ≤ 95 → bucket age ≠ "Unknown".
Proof.
  intros Hage. unfold bucket.
  destruct (Z.leb_spec 0 age), (Z.leb_spec age 120); try lia. cbn [andb negb].
  destruct (scan_ranges AGE_RANGES age) as [label|] eqn:Hscan.
  - apply scan_ranges_Some in Hscan as (i & lo & hi & Hi & _ & -> & _).
    apply list_elem_of_lookup_2 in Hi. unfold AGE_RANGES in Hi.
    repeat (apply elem_of_cons in Hi as [[= -> ->]|Hi]; [by vm_compute|]).
    by apply elem_of_nil in Hi.
  - destruct (AGE_RANGES_cover age Hage) as (lo & hi & Hin & Hb).
    by destruct (scan_ranges_None _ _ _ _ Hscan Hin).
Qed.

(** X1.  For an integer age, [generalize_age] returns ["Unknown"] exactly
    when the age is below 18 or above 95, and it never logs or raises. *)
Theorem generalize_age_int_unknown (a : Z) w :
  (∃ label, generalize_age (PyInt a) w = (inr label, w)) ∧
  (generalize_age (PyInt a) w = (inr "Unknown", w) ↔ ¬ (18 ≤ a ≤ 95)).
Proof.
  rewrite (generalize_age_converted (PyInt a) a) by done.
  split; [by eauto|]. split.
  - intros [= Hu] Hage. by apply (bucket_band a).
  - intros Hage. by rewrite bucket_gap.
Qed.

(** X2.  [generalize_age] raises exactly on [None] and on an infinite
    float, and then changes nothing; on every other cell it returns
    ["Unknown"] or the label of one of the eight ranges, leaves the generator
    and the files alone, and logs nothing or one error record. *)
Theorem generalize_age_outcome (v : value) w :
  ((v = PyNone ∨ ∃ sgn, v = PyFloat (S754_infinity sgn)) ↔
   ∃ e, generalize_age v w = (inl e, w)) ∧
  (∀ label w', generalize_age v w = (inr label, w') →
     label ∈ AGE_LABELS ∧ w_rng w' = w_rng w ∧ w_files w' = w_files w ∧
     (w_log w' = w_log w ∨ ∃ msg, w_log w' = w_log w ++ [(ERROR, msg)])) ∧
  (∀ e w', generalize_age v w = (inl e, w') →
     w' = w ∧ is_ValueError e = false).
Proof.
  destruct (Py.int v) as [e|age] eqn:Hint.
  - destruct (is_ValueError e) eqn:He.
    + destruct e; try done. rewrite (generalize_age_ValueError _ _ _ Hint).
      split; [|split].
      * split; [|by intros [e [=]]].
        intros Hv%escapes_spec. unfold escapes in Hv. by rewrite Hint in Hv.
      * intros label w' [= <- <-]. simpl.
        split; [by vm_compute; repeat constructor|]. eauto.
      * by intros e w' [=].
    + rewrite (generalize_age_uncaught _ _ _ Hint He). split; [|split].
      * split; [by eauto|]. intros _. apply escapes_spec.
        unfold escapes. by rewrite Hint, He.
      * by intros label w' [=].
      * by intros e' w' [= <- <-].
  - rewrite (generalize_age_converted _ _ _ Hint). split; [|split].
    + split; [|by intros [e [=]]].
      intros Hv%escapes_spec. unfold escapes in Hv. by rewrite Hint in Hv.
    + intros label w' [= <- <-]. split; [apply bucket_label|]. eauto.
    + by intros e w' [=].
Qed.

(** X17.  [generalize_age] logs exactly for a NaN and for a string that
    [int] does not read as an integer (for an ASCII string: one that is not
    blanks, an optional sign and a base-10 literal): it then returns
    ["Unknown"] and appends the record that quotes the cell; for any other
    cell it leaves the world as it found it. *)
Theorem generalize_age_diagnostic (v : value) w :
  (((v = PyFloat S754_nan ∨ ∃ txt, v = PyStr txt ∧ int_of_str txt = None) ∧
    generalize_age v w =
      (inr "Unknown",
       World (w_rng w)
         (w_log w ++ [(ERROR, "Invalid age value: " +:+ Py.str v
                                +:+ ".  Returning 'Unknown'")])
         (w_files w))) ∨
   (¬ (v = PyFloat S754_nan ∨ ∃ txt, v = PyStr txt ∧ int_of_str txt = None) ∧
    ∃ r, generalize_age v w = (r, w))) ∧
  (∀ txt, is_ascii txt = true → int_of_str txt = int_of_string txt).
Proof.
  split; [|by intros txt Hascii; unfold int_of_str; rewrite Hascii].
  destruct (Py.int v) as [e|age] eqn:Hint.
  - destruct (is_ValueError e) eqn:He.
    + left. destruct e; try done.
      split; [|by eapply generalize_age_ValueError].
      destruct v as [| | |[]|txt]; try done; [by left|]. right. exists txt.
      split; [done|]. simpl in Hint. by destruct (int_of_str txt).
    + right. rewrite (generalize_age_uncaught _ _ _ Hint He).
      split; [|by eauto].
      intros [->|(txt & -> & Hs)]; simpl in Hint; [|rewrite Hs in Hint];
        by injection Hint as <-.
  - right. rewrite (generalize_age_converted _ _ _ Hint).
    split; [|by eauto].
    intros [->|(txt & -> & Hs)]; simpl in Hint; [done|]. by rewrite Hs in Hint.
Qed.

(** *** The job-title mapper *)

(** X3.  Mapping a job title twice gives what mapping it once gives: no
    category of [JOB_TITLE_MAPPING] is itself a key. *)
Theorem generalize_job_title_idempotent (k : string) :
  generalize_job_title (generalize_job_title k) = generalize_job_title k ∧
  JOB_TITLE_MAPPING !! generalize_job_title k = None.
Proof.
  split; [apply generalize_job_title_idemp|].
  unfold generalize_job_title.
  destruct (JOB_TITLE_MAPPING !! k) as [v|] eqn:Hk; [|done].
  by apply JOB_TITLE_MAPPING_values in Hk as [_ Hv].
Qed.

(** X4.  A job title is changed exactly when it is a key of
    [JOB_TITLE_MAPPING]: no key is mapped to itself. *)
Theorem generalize_job_title_changes (k : string) :
  generalize_job_title k ≠ k ↔ k ∈ dom JOB_TITLE_MAPPING.
Proof.
  rewrite elem_of_dom. unfold generalize_job_title.
  destruct (JOB_TITLE_MAPPING !! k) as [v|] eqn:Hk.
  - split; [by eauto|]. intros _ ->.
    destruct (JOB_TITLE_MAPPING_values _ _ Hk) as [_ Hv]. congruence.
  - split; [done|]. by intros [v [=]].
Qed.

(** *** Integers and their decimal strings *)

Lemma digit_value_range a d :
  digit_value a = Some d → 48 ≤ code a ≤ 57 ∧ d = code a - 48.
Proof.
  unfold digit_value.
  destruct (Z.leb_spec 48 (code a)), (Z.leb_spec (code a) 57); simpl;
    intros [= <-]; lia.
Qed.

Lemma digit_value_pretty_N_char (d : N) :
  (d < 10)%N → digit_value (pretty_N_char d) = Some (Z.of_N d).
Proof.
  intros Hd.
  assert (d = 0 ∨ d = 1 ∨ d = 2 ∨ d = 3 ∨ d = 4 ∨ d = 5 ∨ d = 6 ∨ d = 7
          ∨ d = 8 ∨ d = 9)%N as Hcases by lia.
  by repeat (destruct Hcases as [->|Hcases]; [done|]); subst.
Qed.

(** Scanning the digits that [pretty] puts in front of [s]: [k] of them,
    as many as [x] has. *)
Lemma scan_digits_pretty_N_go (x : N) (s : string) (count : nat) (acc : Z) :
  ∃ k : nat,
    scan_digits (list_ascii_of_string (pretty_N_go x s)) false count acc =
      scan_digits (list_ascii_of_string s) false (count + k)
        (acc * 10 ^ Z.of_nat k + Z.of_N x) ∧
    (x = 0%N → k = 0%nat) ∧
    ((0 < x)%N → 10 ^ (Z.of_nat k - 1) ≤ Z.of_N x ∧ (0 < k)%nat).
Proof.
  revert s count acc.
  induction (N.lt_wf_0 x) as [x _ IH]; intros s count acc.
  assert (x = 0 ∨ 0 < x)%N as [->|Hx] by lia.
  - exists 0%nat. rewrite pretty_N_go_0, Nat.add_0_r. simpl.
    split; [f_equal; lia|]. split; [done|lia].
  - rewrite pretty_N_go_step by done.
    destruct (IH (x `div` 10)%N (N.div_lt x 10 Hx eq_refl)
                (String (pretty_N_char (x `mod` 10)) s) count acc)
      as (k & -> & Hzero & Hpos).
    exists (S k). cbn [list_ascii_of_string scan_digits].
    rewrite digit_value_pretty_N_char by (apply N.mod_lt; lia).
    split; [|split; [lia|]].
    + f_equal; [lia|].
      rewrite Nat2Z.inj_succ, Z.pow_succ_r by lia.
      pose proof (N.div_mod x 10 ltac:(lia)) as Hdm.
      rewrite N2Z.inj_mod. rewrite N2Z.inj_div in *.
      pose proof (Z.div_mod (Z.of_N x) 10 ltac:(lia)) as Hzdm.
      change (Z.of_N 10) with 10.
      set (q := Z.of_N x `div` 10) in *. set (r := Z.of_N x `mod` 10) in *.
      clearbody q r. rewrite Hzdm. ring.
    + intros _. split; [|lia].
      replace (Z.of_nat (S k) - 1) with (Z.of_nat k) by lia.
      destruct (N.eq_0_gt_0_cases (x `div` 10)) as [H0|Hp].
      * rewrite (Hzero H0). simpl. lia.
      * destruct (Hpos Hp) as [Hle Hk].
        replace (Z.of_nat k) with (Z.succ (Z.of_nat k - 1)) by lia.
        rewrite Z.pow_succ_r by lia.
        rewrite N2Z.inj_div in Hle. change (Z.of_N 10) with 10 in Hle.
        pose proof (Z.mul_div_le (Z.of_N x) 10 ltac:(lia)). lia.
Qed.

Lemma pretty_N_go_head (x : N) (s : string) :
  (0 < x)%N →
  ∃ a l d, list_ascii_of_string (pretty_N_go x s) = a :: l ∧
           digit_value a = Some d.
Proof.
  revert s. induction (N.lt_wf_0 x) as [x _ IH]; intros s Hx.
  rewrite pretty_N_go_step by done.
  destruct (N.eq_0_gt_0_cases (x `div` 10)) as [H0|Hp].
  - rewrite H0, pretty_N_go_0. simpl. eexists _, _, _. split; [done|].
    apply digit_value_pretty_N_char, N.mod_lt. lia.
  - apply IH; [|done]. by apply N.div_lt.
Qed.

Lemma parse_unsigned_pretty (p : positive) :
  Z.pos p < 10 ^ Z.of_nat max_str_digits →
  parse_unsigned (list_ascii_of_string (pretty (N.pos p))) = Some (Z.pos p).
Proof.
  intros Hlim. unfold pretty, pretty_N.
  rewrite decide_False by done.
  destruct (pretty_N_go_head (N.pos p) EmptyString) as (a & l & d & Hl & Hd);
    [lia|].
  destruct (scan_digits_pretty_N_go (N.pos p) EmptyString 0 0)
    as (k & Hscan & _ & Hpos).
  destruct Hpos as [Hle Hk]; [lia|].
  unfold parse_unsigned. rewrite Hl in *.
  apply digit_value_range in Hd as [Hcode _].
  unfold is_underscore. destruct (Z.eqb_spec (code a) 95); [lia|].
  rewrite Hscan. simpl.
  destruct (Nat.eqb_spec k 0); [lia|].
  assert (k ≤ max_str_digits)%nat as Hk'.
  { apply Nat2Z.inj_le.
    assert (Z.of_nat k - 1 < Z.of_nat max_str_digits); [|lia].
    apply (Z.pow_lt_mono_r_iff 10); [lia|lia|].
    change (Z.of_N (N.pos p)) with (Z.pos p) in Hle. lia. }
  destruct (Nat.ltb_spec max_str_digits k); [lia|done].
Qed.

Lemma int_of_string_pretty (z : Z) :
  Z.abs z < 10 ^ Z.of_nat max_str_digits → int_of_string (pretty z) = Some z.
Proof.
  intros Hlim. destruct z as [|p|p]; [done|..].
  - unfold int_of_string, pretty, pretty_Z.
    pose proof (parse_unsigned_pretty p ltac:(lia)) as Hparse.
    unfold pretty at 1, pretty_positive.
    destruct (pretty_N_go_head (N.pos p) EmptyString) as (a & l & d & Hl & Hd);
      [lia|].
    unfold pretty, pretty_N in *. rewrite decide_False in * by done.
    rewrite Hl in *. apply digit_value_range in Hd as [Hcode _].
    cbn [skip_spaces]. unfold is_space.
    destruct (Z.leb_spec 9 (code a)), (Z.leb_spec (code a) 13),
      (Z.eqb_spec (code a) 32); try lia; cbn [andb orb].
    destruct (Z.eqb_spec (code a) 43), (Z.eqb_spec (code a) 45); try lia.
    done.
  - unfold int_of_string, pretty, pretty_Z.
    pose proof (parse_unsigned_pretty p ltac:(lia)) as Hparse.
    unfold pretty at 1, pretty_positive.
    change (list_ascii_of_string ("-" +:+ ?s))
      with ("-"%char :: list_ascii_of_string s).
    cbn [skip_spaces]. change (is_space "-") with false. cbn iota.
    change (code "-" =? 43) with false. change (code "-" =? 45) with true.
    cbn iota. by rewrite Hparse.
Qed.

Lemma is_ascii_pretty_N_go (x : N) (s : string) :
  is_ascii s = true → is_ascii (pretty_N_go x s) = true.
Proof.
  revert s. induction (N.lt_wf_0 x) as [x _ IH]; intros s Hs.
  destruct (N.eq_0_gt_0_cases x) as [->|Hx]; [by rewrite pretty_N_go_0|].
  rewrite pretty_N_go_step by done. apply IH; [by apply N.div_lt|].
  unfold is_ascii in *. cbn [list_ascii_of_string forallb]. rewrite Hs.
  pose proof (digit_value_pretty_N_char (x `mod` 10)
                ltac:(apply N.mod_lt; lia)) as [Hcode _]%digit_value_range.
  destruct (Z.ltb_spec (code (pretty_N_char (x `mod` 10))) 128); [done|lia].
Qed.

Lemma is_ascii_pretty (z : Z) : is_ascii (pretty z) = true.
Proof.
  destruct z as [|p|p]; [done|..]; unfold pretty, pretty_Z, pretty,
    pretty_positive, pretty, pretty_N; rewrite decide_False by done.
  - by apply is_ascii_pretty_N_go.
  - change (is_ascii ("-" +:+ ?t)) with (is_ascii t).
    by apply is_ascii_pretty_N_go.
Qed.

Lemma int_of_str_pretty (z : Z) :
  Z.abs z < 10 ^ Z.of_nat max_str_digits → int_of_str (pretty z) = Some z.
Proof.
  intros Hlim. unfold int_of_str.
  by rewrite is_ascii_pretty, int_of_string_pretty.
Qed.

(** X5.  An integer and its decimal string are bucketed alike: for every
    integer of at most 4300 digits, [generalize_age] on [str(a)] does what it
    does on [a]. *)
Theorem generalize_age_decimal_string (a : Z) w :
  Z.abs a < 10 ^ 4300 →
  Py.int (PyStr (pretty a)) = inr a ∧
  generalize_age (PyStr (Py.str (PyInt a))) w = generalize_age (PyInt a) w.
Proof.
  intros Hlim.
  assert (Hint : Py.int (PyStr (pretty a)) = inr a).
  { unfold Py.int. by rewrite int_of_str_pretty. }
  split; [done|]. cbn [Py.str].
  by rewrite (generalize_age_converted _ a w Hint),
       (generalize_age_converted (PyInt a) a).
Qed.

(** *** The region resolver over a column *)

Lemma apply_cons {A B} (f : A → M B) (x : A) (l : list A) w :
  apply f (x :: l) w =
    match f x w with
    | (inr y, w1) =>
        match apply f l w1 with
        | (inr ys, w2) => (inr (y :: ys), w2)
        | (inl e, w2) => (inl e, w2)
        end
    | (inl e, w1) => (inl e, w1)
    end.
Proof.
  cbn [apply]. unfold mbind, M_bind, bind.
  destruct (f x w) as [[e|y] w1]; [done|].
  by destruct (apply f l w1) as [[e|ys] w2].
Qed.

Lemma drawn_succ (n : nat) (g : rng) :
  drawn (S n) g = drawn n (fake_state g).2.
Proof. exact (Nat.iter_succ_r n (λ g', (fake_state g').2) g). Qed.

Lemma apply_city_run (l : list string) w :
  (∀ k e, (k < length l)%nat →
          (fake_state (drawn k (w_rng w))).1 ≠ inr (NotBuilt e)) →
  ∃ out log,
    apply generalize_city_to_state l w =
      (inr out,
       World (drawn (length l) (w_rng w)) (w_log w ++ log) (w_files w)) ∧
    length out = length l ∧
    Forall (λ v, is_None v = true ∨ ∃ state, v = PyStr state) out ∧
    Forall (λ record, record.1 = ERROR) log ∧
    length log = length (filter (λ v, is_None v = true) out).
Proof.
  revert w. induction l as [|city l IH]; intros w Hbuilt.
  - exists [], []. simpl. rewrite app_nil_r. by destruct w.
  - rewrite apply_cons, generalize_city_to_state_run.
    cbn [length]. rewrite drawn_succ.
    assert (Htail : ∀ k e, (k < length l)%nat →
              (fake_state (drawn k (fake_state (w_rng w)).2)).1
                ≠ inr (NotBuilt e)).
    { intros k e Hk. rewrite <- drawn_succ. apply Hbuilt. simpl. lia. }
    pose proof (λ e, Hbuilt 0%nat e ltac:(simpl; lia)) as Hfirst.
    change (drawn 0 (w_rng w)) with (w_rng w) in Hfirst.
    destruct (fake_state (w_rng w)) as [[e|[state|e]] g]; cbn [fst snd] in *.
    + destruct (IH (World g
                      (w_log w ++ [(ERROR, "Failed to generalize city " +:+ city
                                             +:+ " to state: " +:+ exn_msg e)])
                      (w_files w)) Htail)
        as (out & log & -> & Hlen & Hout & Hlog & Hcount);
        cbn [w_rng w_log w_files].
      eexists (PyNone :: out), (_ :: log). rewrite <- app_assoc.
      split; [done|]. split; [by rewrite !length_cons, Hlen|].
      split; [constructor; [by left|done]|].
      split; [by constructor|].
      rewrite filter_cons_True by done. by rewrite !length_cons, Hcount.
    + destruct (IH (World g (w_log w) (w_files w)) Htail)
        as (out & log & -> & Hlen & Hout & Hlog & Hcount);
        cbn [w_rng w_log w_files].
      exists (PyStr state :: out), log.
      split; [done|]. split; [by rewrite !length_cons, Hlen|].
      split; [constructor; [by eauto|done]|]. split; [done|].
      by rewrite filter_cons_False by done.
    + by destruct (Hfirst e).
Qed.

Lemma apply_city_independent (l1 l2 : list string) w1 w2 :
  length l1 = length l2 → w_rng w1 = w_rng w2 →
  (apply generalize_city_to_state l1 w1).1
    = (apply generalize_city_to_state l2 w2).1.
Proof.
  revert l2 w1 w2. induction l1 as [|c1 l1 IH]; intros [|c2 l2] w1 w2; try done.
  intros [= Hlen] Hrng.
  rewrite !apply_cons, !generalize_city_to_state_run, Hrng.
  destruct (fake_state (w_rng w2)) as [[e|[state|e]] g]; [| |done].
  - match goal with
    | |- (match ?a1 with _ => _ end).1 = (match ?a2 with _ => _ end).1 =>
        assert (Heq : a1.1 = a2.1) by (by apply IH);
        destruct a1 as [[e1|out1] w1'], a2 as [[e2|out2] w2']
    end; simpl in *; congruence.
  - match goal with
    | |- (match ?a1 with _ => _ end).1 = (match ?a2 with _ => _ end).1 =>
        assert (Heq : a1.1 = a2.1) by (by apply IH);
        destruct a1 as [[e1|out1] w1'], a2 as [[e2|out2] w2']
    end; simpl in *; congruence.
Qed.

(** X6.  Over a column of [n] cities, when none of the [n] calls fails to
    build its [Faker()], the resolver does not raise and leaves the
    generator as [n] calls leave it; the cells it returns are state names or
    [None], as many as the cities; the files stay as they are and the log
    grows by one error record for each [None]. *)
Theorem generalize_city_column (l : list string) w :
  (∀ k e, (k < length l)%nat →
          (fake_state (drawn k (w_rng w))).1 ≠ inr (NotBuilt e)) →
  ∃ out w',
    apply generalize_city_to_state l w = (inr out, w') ∧
    length out = length l ∧
    Forall (λ v, is_None v = true ∨ ∃ state, v = PyStr state) out ∧
    w_rng w' = drawn (length l) (w_rng w) ∧
    w_files w' = w_files w ∧
    ∃ log, w_log w' = w_log w ++ log ∧
           Forall (λ record, record.1 = ERROR) log ∧
           length log = length (filter (λ v, is_None v = true) out).
Proof.
  intros Hbuilt.
  destruct (apply_city_run l w Hbuilt)
    as (out & log & Hrun & Hlen & Hout & Hlog & Hn).
  eexists out, _. split; [exact Hrun|]. simpl. repeat split; try done.
  by exists log.
Qed.

Lemma transform_city_only args df w :
  given (job_title_column args) = None → given (age_column args) = None →
  transform args df w = city_stage args (limit_rows args df) w.
Proof.
  intros Hj Ha. unfold transform, mbind, M_bind, bind.
  unfold job_title_stage, age_stage. by rewrite Hj, Ha.
Qed.

Lemma limit_rows_set_column args c s df :
  c ∈ columns df →
  limit_rows args (set_column c s df) =
    set_column c
      (match num_rows args with Some n => head_series n s | None => s end)
      (limit_rows args df).
Proof.
  intros Hc. unfold limit_rows.
  destruct (num_rows args) as [n|]; [by apply head_set_column|done].
Qed.

(** X7.  With only a city column named, the table [transform] returns does
    not depend on what the cells of that column hold: replacing the column
    by any other of the same length gives the same result. *)
Theorem transform_city_blind args df c s1 s2 w :
  given (job_title_column args) = None →
  given (age_column args) = None →
  given (city_column args) = Some c →
  get_column c df = Some s1 →
  length s2 = length s1 →
  (transform args (set_column c s2 df) w).1 = (transform args df w).1.
Proof.
  intros Hj Ha Hc Hs1 Hlen. rewrite !transform_city_only by done.
  rewrite limit_rows_set_column by by eapply get_column_elem.
  rewrite !city_stage_run, Hc, get_column_set_column.
  destruct (get_column_limit_rows args c df s1 Hs1) as (s1' & Hs1' & _).
  rewrite Hs1'.
  set (s2' := match num_rows args with
              | Some n => head_series n s2 | None => s2 end).
  assert (Hlen' : length s2' = length s1').
  { subst s2'. unfold limit_rows in Hs1'.
    destruct (num_rows args) as [n|].
    - rewrite get_column_head, Hs1 in Hs1'. injection Hs1' as <-.
      apply Nat2Z.inj. rewrite !head_series_length. by rewrite Hlen.
    - congruence. }
  pose proof (apply_city_independent (Py.str <$> s2') (Py.str <$> s1') w w
                ltac:(by rewrite !length_fmap) eq_refl) as Heq.
  destruct (apply generalize_city_to_state (Py.str <$> s2') w) as [[e2|o2] w2],
    (apply generalize_city_to_state (Py.str <$> s1') w) as [[e1|o1] w1];
    simpl in *; try congruence.
  injection Heq as ->. by rewrite set_column_twice.
Qed.

(** *** The shape of the transformed table *)

Lemma set_column_length c0 s0 s0' df c s :
  get_column c0 df = Some s0 → length s0' = length s0 →
  get_column c df = Some s →
  ∃ s', get_column c (set_column c0 s0' df) = Some s' ∧ length s' = length s.
Proof.
  intros Hs0 Hlen Hs. destruct (decide (c0 = c)) as [->|Hne].
  - rewrite get_column_set_column. exists s0'. split; [done|]. congruence.
  - rewrite get_column_set_column_ne by done. by exists s.
Qed.

(** X8.  A [transform] that returns keeps the cell count of every column,
    named or not: each column of the result is as long as that column of the
    input after the row limit. *)
Theorem transform_column_lengths args df w df' w' c s :
  transform args df w = (inr df', w') →
  get_column c (limit_rows args df) = Some s →
  ∃ s', get_column c df' = Some s' ∧ length s' = length s.
Proof.
  intros (df1 & df2 & w1 & Hjob & Hage & Hcity)%transform_inr Hs.
  apply job_title_stage_inr in Hjob as [_ Hjob].
  apply age_stage_inr in Hage. apply city_stage_inr in Hcity.
  assert (∃ s1, get_column c df1 = Some s1 ∧ length s1 = length s)
    as (s1 & Hs1 & Hl1).
  { destruct Hjob as [[_ ->]|(cj & sj & _ & Hsj & ->)]; [by exists s|].
    eapply set_column_length; [done| |done]. by rewrite length_fmap. }
  assert (∃ s2, get_column c df2 = Some s2 ∧ length s2 = length s)
    as (s2 & Hs2 & Hl2).
  { destruct Hage as [[_ ->]|(ca & sa & sa' & _ & Hsa & Hla & ->)].
    - by exists s1.
    - destruct (set_column_length ca sa sa' df1 c s1 Hsa Hla Hs1)
        as (s2 & Hs2 & Hl2).
      exists s2. split; [done|]. congruence. }
  destruct Hcity as [[_ ->]|(cc & sc & sc' & _ & Hsc & Hlc & ->)].
  - by exists s2.
  - destruct (set_column_length cc sc sc' df2 c s2 Hsc Hlc Hs2)
      as (s3 & Hs3 & Hl3).
    exists s3. split; [done|]. congruence.
Qed.

Lemma generalize_age_label v w label w' :
  generalize_age v w = (inr label, w') → label ∈ AGE_LABELS.
Proof.
  destruct (Py.int v) as [e|age] eqn:Hint.
  - destruct (is_ValueError e) eqn:He.
    + destruct e; try done. rewrite (generalize_age_ValueError _ _ _ Hint).
      intros [= <- <-]. by vm_compute; repeat constructor.
    + by rewrite (generalize_age_uncaught _ _ _ Hint He).
  - rewrite (generalize_age_converted _ _ _ Hint).
    intros [= <- <-]. apply bucket_label.
Qed.

Lemma generalize_age_rng v w r w' :
  generalize_age v w = (r, w') → w_rng w' = w_rng w.
Proof.
  destruct (Py.int v) as [e|age] eqn:Hint.
  - destruct (is_ValueError e) eqn:He.
    + destruct e; try done. rewrite (generalize_age_ValueError _ _ _ Hint).
      by intros [= <- <-].
    + rewrite (generalize_age_uncaught _ _ _ Hint He). by intros [= <- <-].
  - rewrite (generalize_age_converted _ _ _ Hint). by intros [= <- <-].
Qed.

Lemma age_cell_run v w :
  (label ← generalize_age v; mret (PyStr label)) w =
    match generalize_age v w with
    | (inr label, w1) => (inr (PyStr label), w1)
    | (inl e, w1) => (inl e, w1)
    end.
Proof.
  unfold mbind, M_bind, bind. by destruct (generalize_age v w) as [[e|l] w1].
Qed.

Lemma apply_age_labels s w s' w' :
  apply (λ v, label ← generalize_age v; mret (PyStr label)) s w = (inr s', w') →
  Forall is_age_label s'.
Proof.
  revert w s' w'. induction s as [|v s IH]; intros w s' w'.
  - intros [= <- <-]. constructor.
  - rewrite apply_cons, age_cell_run.
    destruct (generalize_age v w) as [[e|label] w1] eqn:Hv; [done|].
    destruct (apply _ s w1) as [[e|ys] w2] eqn:Hs; [done|].
    intros [= <- <-]. constructor; [|by eapply IH].
    exists label. split; [done|]. by eapply generalize_age_label.
Qed.

Lemma apply_age_rng s w r w' :
  apply (λ v, label ← generalize_age v; mret (PyStr label)) s w = (r, w') →
  w_rng w' = w_rng w.
Proof.
  revert w r w'. induction s as [|v s IH]; intros w r w'.
  - by intros [= <- <-].
  - rewrite apply_cons, age_cell_run.
    destruct (generalize_age v w) as [[e|label] w1] eqn:Hv;
      apply generalize_age_rng in Hv.
    { by intros [= <- <-]. }
    destruct (apply _ s w1) as [[e|ys] w2] eqn:Hs; apply IH in Hs;
      intros [= <- <-]; congruence.
Qed.

(** X9.  After a [transform] that returns, the column the age option names
    holds only strings that are ["Unknown"] or the label of one of the eight
    ranges (unless the city option names the same column): no raw age is
    left in it. *)
Theorem transform_age_column_labels args df w df' w' c s' :
  transform args df w = (inr df', w') →
  given (age_column args) = Some c →
  given (city_column args) ≠ Some c →
  get_column c df' = Some s' →
  Forall is_age_label s'.
Proof.
  intros (df1 & df2 & w1 & _ & Hage & Hcity)%transform_inr Hc Hne.
  apply city_stage_frame in Hcity as [_ Hget]. rewrite (Hget c Hne).
  rewrite age_stage_run, Hc in Hage.
  destruct (get_column c df1) as [s|]; [|done].
  destruct (apply _ s w) as [[e|s2] w2] eqn:Happ; [done|].
  injection Hage as <- <-. rewrite get_column_set_column.
  intros [= <-]. by eapply apply_age_labels.
Qed.

(** X10.  After a [transform] that returns, the column the job-title option
    names holds, cell by cell, [generalize_job_title(str(v))] of the input
    column after the row limit, whatever the other options do to other
    columns. *)
Theorem transform_job_title_column args df w df' w' c :
  transform args df w = (inr df', w') →
  given (job_title_column args) = Some c →
  given (age_column args) ≠ Some c →
  given (city_column args) ≠ Some c →
  ∃ s, get_column c (limit_rows args df) = Some s ∧
       get_column c df' =
         Some ((λ v, PyStr (generalize_job_title (Py.str v))) <$> s).
Proof.
  intros (df1 & df2 & w1 & Hjob & Hage & Hcity)%transform_inr Hc Hna Hnc.
  apply city_stage_frame in Hcity as [_ Hget3].
  apply age_stage_frame in Hage as [_ Hget2].
  rewrite (Hget3 c Hnc), (Hget2 c Hna).
  rewrite job_title_stage_run, Hc in Hjob.
  destruct (get_column c (limit_rows args df)) as [s|]; [|done].
  injection Hjob as <-. exists s. by rewrite get_column_set_column.
Qed.

Lemma age_stage_rng args df w r w' :
  age_stage args df w = (r, w') → w_rng w' = w_rng w.
Proof.
  rewrite age_stage_run.
  destruct (given (age_column args)) as [ca|]; [|by intros [= <- <-]].
  destruct (get_column ca df) as [sa|]; [|by intros [= <- <-]].
  destruct (apply _ sa w) as [[e|s2] w2] eqn:Happ;
    apply apply_age_rng in Happ; by intros [= <- <-].
Qed.

(** X11.  [transform] writes no file and only appends to the log; with no
    city column named it never draws from the generator, whether it returns
    or raises. *)
Theorem transform_effects args df w r w' :
  transform args df w = (r, w') →
  w_files w' = w_files w ∧
  (∃ log, w_log w' = w_log w ++ log) ∧
  (given (city_column args) = None → w_rng w' = w_rng w).
Proof.
  intros Hrun. pose proof (transform_extends _ _ _ _ _ Hrun) as [Hf Hl].
  split; [done|]. split; [done|]. intros Hc.
  unfold transform, mbind, M_bind, bind in Hrun.
  destruct (job_title_stage _ _ w) as [[e|df1] w0] eqn:Hjob;
    apply job_title_stage_world in Hjob as ->.
  { by injection Hrun as <- <-. }
  destruct (age_stage args df1 w) as [[e|df2] w1] eqn:Hage;
    apply age_stage_rng in Hage.
  { by injection Hrun as <- <-. }
  unfold city_stage in Hrun. rewrite Hc in Hrun. by injection Hrun as <- <-.
Qed.

(** *** Row limits at the edges *)

Lemma head_series_all n s : Z.of_nat (length s) ≤ n → head_series n s = s.
Proof.
  intros Hn. unfold head_series. destruct (Z.leb_spec 0 n); [|lia].
  apply take_ge. lia.
Qed.

Lemma head_all n df :
  (∀ c s, (c, s) ∈ df → Z.of_nat (length s) ≤ n) → head n df = df.
Proof.
  intros Hall. unfold head. induction df as [|[c s] df IH]; [done|].
  cbn [fmap list_fmap]. unfold prod_map at 1; simpl. f_equal.
  - f_equal. apply head_series_all, (Hall c). by left.
  - apply IH. intros c' s' Hin. apply (Hall c'). by right.
Qed.

Lemma transform_without_limit args df w :
  transform (without_limit args) df w =
    (df1 ← job_title_stage args df; df2 ← age_stage args df1;
     city_stage args df2) w.
Proof. done. Qed.

(** X12.  A row limit that no column exceeds changes nothing: [transform]
    does what it does without the limit. *)
Theorem transform_limit_beyond args df n w :
  num_rows args = Some n →
  (∀ c s, (c, s) ∈ df → Z.of_nat (length s) ≤ n) →
  transform args df w = transform (without_limit args) df w.
Proof.
  intros Hn Hall. rewrite transform_without_limit. unfold transform.
  unfold limit_rows. rewrite Hn. by rewrite head_all.
Qed.

Lemma set_column_same c s df :
  get_column c df = Some s → set_column c s df = df.
Proof.
  induction df as [|[c' s'] df IH]; simpl; [done|].
  destruct (decide (c' = c)) as [->|Hne]; [by intros [= ->]|].
  intros Hs. by rewrite IH.
Qed.

(** X13.  On a table with no rows left after the limit (an input of headers
    alone, or a limit of 0) whose header has every named column,
    [transform] returns the table as it is, logs nothing and draws
    nothing. *)
Theorem transform_no_rows args df w :
  (∀ c s, get_column c (limit_rows args df) = Some s → s = []) →
  (∀ c, given (job_title_column args) = Some c ∨ given (age_column args) = Some c
        ∨ given (city_column args) = Some c → c ∈ columns df) →
  transform args df w = (inr (limit_rows args df), w).
Proof.
  intros Hempty Hnamed.
  assert (Hcol : ∀ c, given (job_title_column args) = Some c
                      ∨ given (age_column args) = Some c
                      ∨ given (city_column args) = Some c →
                      get_column c (limit_rows args df) = Some []).
  { intros c Hc. specialize (Hnamed c Hc).
    rewrite <- (columns_limit_rows args) in Hnamed.
    apply has_column_elem, has_column_get in Hnamed as [s Hs].
    by rewrite Hs, (Hempty c s Hs). }
  unfold transform, mbind, M_bind, bind.
  rewrite job_title_stage_run.
  assert (Hjob : match given (job_title_column args) with
                 | Some c =>
                     match get_column c (limit_rows args df) with
                     | Some s =>
                         (inr (set_column c
                                 ((λ v, PyStr (generalize_job_title (Py.str v)))
                                    <$> s) (limit_rows args df)), w)
                     | None =>
                         (inl (ValueError
                                 ("Job title column '" +:+ c
                                    +:+ "' not found in input file.")), w)
                     end
                 | None => (inr (limit_rows args df), w)
                 end = (inr (limit_rows args df), w)).
  { destruct (given (job_title_column args)) as [c|] eqn:Hg; [|done].
    rewrite (Hcol c) by eauto. simpl. by rewrite set_column_same by eauto. }
  rewrite Hjob. rewrite age_stage_run.
  assert (Hage : match given (age_column args) with
                 | Some c =>
                     match get_column c (limit_rows args df) with
                     | Some s =>
                         match apply (λ v, label ← generalize_age v;
                                           mret (PyStr label)) s w with
                         | (inr s', w') =>
                             (inr (set_column c s' (limit_rows args df)), w')
                         | (inl e, w') => (inl e, w')
                         end
                     | None =>
                         (inl (ValueError
                                 ("Age column '" +:+ c
                                    +:+ "' not found in input file.")), w)
                     end
                 | None => (inr (limit_rows args df), w)
                 end = (inr (limit_rows args df), w)).
  { destruct (given (age_column args)) as [c|] eqn:Hg; [|done].
    rewrite (Hcol c) by eauto. simpl. by rewrite set_column_same by eauto. }
  rewrite Hage. rewrite city_stage_run.
  destruct (given (city_column args)) as [c|] eqn:Hg; [|done].
  rewrite (Hcol c) by eauto. simpl. by rewrite set_column_same by eauto.
Qed.

(** *** The run as a whole *)

(** X14.  When the input cannot be loaded, [main] logs one error record,
    writes no file, draws nothing and returns: the record says that the
    input file was not found for a [FileNotFoundError], renders a
    [ValueError] as such, and reports anything else as unexpected. *)
Theorem main_load_failure read_csv args e w :
  read_csv (input_file args) = inl e →
  main read_csv args w =
    (inr (),
     World (w_rng w)
       (w_log w ++
          [(ERROR,
            match e with
            | FileNotFoundError _ => "Input file not found: " +:+ input_file args
            | ValueError msg => "ValueError: " +:+ msg
            | _ => "An unexpected error occurred: " +:+ exn_msg e
            end)])
       (w_files w)).
Proof.
  intros Hread. unfold main, try_except, mbind, M_bind, bind.
  rewrite Hread. by destruct e.
Qed.


Lemma city_stage_returns args df w :
  (∀ c, given (city_column args) = Some c →
        ∃ s, get_column c df = Some s ∧
             ∀ k e, (k < length s)%nat →
                    (fake_state (drawn k (w_rng w))).1 ≠ inr (NotBuilt e)) →
  ∃ df' w', city_stage args df w = (inr df', w').
Proof.
  intros Hc. rewrite city_stage_run.
  destruct (given (city_column args)) as [c|]; [|by eauto].
  destruct (Hc c eq_refl) as (s & -> & Hbuilt).
  destruct (apply_city_run (Py.str <$> s) w) as (out & log & -> & _);
    [|by eauto].
  intros k e Hk. apply Hbuilt. by rewrite length_fmap in Hk.
Qed.

Lemma job_title_stage_length args df w df' w' c s :
  job_title_stage args df w = (inr df', w') → get_column c df = Some s →
  ∃ s', get_column c df' = Some s' ∧ length s' = length s.
Proof.
  intros [_ [[_ ->]|(cj & sj & _ & Hsj & ->)]]%job_title_stage_inr Hs;
    [by exists s|].
  eapply set_column_length; [done| |done]. by rewrite length_fmap.
Qed.

Lemma age_stage_length args df w df' w' c s :
  age_stage args df w = (inr df', w') → get_column c df = Some s →
  ∃ s', get_column c df' = Some s' ∧ length s' = length s.
Proof.
  intros [[_ ->]|(ca & sa & sa' & _ & Hsa & Hla & ->)]%age_stage_inr Hs;
    [by exists s|].
  by eapply set_column_length.
Qed.

(** X16.  The run succeeds whenever the input loads, every named column is
    in its header, the age column holds no [None] and no infinite float, no
    call made for a cell of the city column fails to build its [Faker()],
    and the output path can be written: [main] then writes one table with
    the header of the input under the output path. *)
Theorem main_succeeds read_csv args df w :
  read_csv (input_file args) = inr df →
  (∀ c, given (job_title_column args) = Some c ∨ given (age_column args) = Some c
        ∨ given (city_column args) = Some c → c ∈ columns df) →
  (∀ ca s v, given (age_column args) = Some ca → get_column ca df = Some s →
             v ∈ s → escapes v = false) →
  (∀ c s k e, given (city_column args) = Some c → get_column c df = Some s →
              (k < length s)%nat →
              (fake_state (drawn k (w_rng w))).1 ≠ inr (NotBuilt e)) →
  (∀ df', write_error (output_file args) df' = None) →
  ∃ df', w_files (main read_csv args w).2 = w_files w ++ [(output_file args, df')] ∧
         columns df' = columns df.
Proof.
  intros Hread Hnamed Hcells Hbuilt Hwrite. rewrite (main_run _ _ _ _ Hread).
  assert (∃ df1, job_title_stage args (limit_rows args df) w = (inr df1, w))
    as [df1 Hjob].
  { rewrite job_title_stage_run.
    destruct (given (job_title_column args)) as [cj|] eqn:Hg; [|by eauto].
    specialize (Hnamed cj (or_introl eq_refl)).
    rewrite <- (columns_limit_rows args) in Hnamed.
    apply has_column_elem, has_column_get in Hnamed as [s ->]. eauto. }
  destruct (age_stage_returns args df1 w) as (df2 & w1 & Hage).
  { intros ca Hca. eapply job_title_stage_convertible; [done|].
    specialize (Hnamed ca (or_intror (or_introl Hca))).
    apply has_column_elem, has_column_get in Hnamed as [s Hs].
    exists s. split; [done|]. intros v Hv. by eapply Hcells. }
  pose proof (job_title_stage_frame _ _ _ _ _ Hjob) as [Hcols1 _].
  pose proof (age_stage_frame _ _ _ _ _ Hage) as [Hcols2 _].
  pose proof (age_stage_rng _ _ _ _ _ Hage) as Hrng.
  destruct (city_stage_returns args df2 w1) as (df3 & w2 & Hcity).
  { intros c Hc.
    specialize (Hnamed c (or_intror (or_intror Hc))).
    apply has_column_elem, has_column_get in Hnamed as [s Hs].
    destruct (get_column_limit_rows args c df s Hs) as (s0 & Hs0 & Hpre & _).
    destruct (job_title_stage_length _ _ _ _ _ c s0 Hjob Hs0)
      as (s1 & Hs1 & Hl1).
    destruct (age_stage_length _ _ _ _ _ c s1 Hage Hs1) as (s2 & Hs2 & Hl2).
    exists s2. split; [done|]. intros k e Hk. rewrite Hrng.
    apply (Hbuilt c s k e Hc Hs).
    apply prefix_length in Hpre. lia. }
  pose proof (city_stage_frame _ _ _ _ _ Hcity) as [Hcols3 _].
  assert (Hrun : transform args df w = (inr df3, w2)).
  { unfold transform, mbind, M_bind, bind. by rewrite Hjob, Hage. }
  pose proof (transform_extends _ _ _ _ _ Hrun) as [Hfiles _].
  rewrite Hrun, Hwrite. simpl. exists df3. rewrite Hfiles. split; [done|].
  by rewrite Hcols3, Hcols2, Hcols1, columns_limit_rows.
Qed.

End Further.

(** ** The properties on concrete runs *)

Section Runs.
#[local] Existing Instances binary_repr ascii_digits scripted writable.

Lemma generalize_age_band_witness :
  generalize_age (PyStr "30") world0 = (inr "26-35", world0).
Proof.
  exact (proj2 (generalize_age_band 30 world0
                  ltac:(lia))).
Defined.

Lemma generalize_job_title_law_witness :
  generalize_job_title "Software Engineer" = "Engineer" ∧
  generalize_job_title "Astronaut" = "Astronaut".
Proof.
  split.
  - apply (proj1 (generalize_job_title_law "Software Engineer")).
    vm_compute; reflexivity.
  - apply (proj1 (proj2 (generalize_job_title_law "Astronaut"))).
    vm_compute; reflexivity.
Defined.


(** C3, negative limit: [head(-1)] of a table of three rows has two rows,
    which is not [min(-1, 3)]. *)
Lemma row_limit_negative :
  transform (args_of None None None (Some (-1))) people world0 =
    (inr [("Job Title", [PyStr "Software Engineer"; PyStr "Astronaut"]);
          ("Age", [PyInt 30; PyInt 150]);
          ("City", [PyStr "Austin"; PyStr "Boston"])],
     world0) ∧
  nrows people = 3%nat ∧
  nrows (head (-1) people) = 2%nat ∧
  Z.of_nat (nrows (head (-1) people)) ≠ Z.min (-1) (Z.of_nat (nrows people)).
Proof. repeat split; by vm_compute. Qed.

(** C4, exit status: with the age option naming
    ["Salary"], which the three-column table lacks, the run logs the error
    and writes nothing, but [main] returns and the status is 0. *)
Lemma column_not_found_exit_zero :
  ("Salary" ∉ columns people) ∧
  main (λ _, inr people) (args_of None (Some "Salary") None None) world0 =
    (inr (),
     @World scripted (w_rng world0)
       [(ERROR, "ValueError: Age column 'Salary' not found in input file.")]
       []) ∧
  ¬ (exit_status
       (main (λ _, inr people) (args_of None (Some "Salary") None None) world0)
     ≠ 0).
Proof.
  split; [by apply (bool_decide_unpack _)|]. split; [by vm_compute|].
  intros Hne. by apply Hne.
Qed.

Lemma main_column_not_found_witness :
  exit_status
    (main (λ _, inr people) (args_of None (Some "Salary") None None) world0) = 0 ∧
  w_files
    (main (λ _, inr people) (args_of None (Some "Salary") None None) world0).2
    = [].
Proof.
  destruct (main_column_not_found (λ _, inr people)
              (args_of None (Some "Salary") None None) people "Salary" world0)
    as (_ & Hexit & Hfiles & _).
  - reflexivity.
  - by apply (bool_decide_unpack _).
  - right; left; reflexivity.
  - split; [exact Hexit|exact Hfiles].
Defined.

(** C5, age column: the first pass turns ["30"] into
    ["26-35"], the second turns ["26-35"], which is no integer, into
    ["Unknown"]. *)
Lemma transform_twice_age :
  transform (args_of None (Some "Age") None None) [("Age", [PyStr "30"])] world0 =
    (inr [("Age", [PyStr "26-35"])], world0) ∧
  transform (args_of None (Some "Age") None None) [("Age", [PyStr "26-35"])]
    world0 =
    (inr [("Age", [PyStr "Unknown"])],
     @World scripted (w_rng world0)
       [(ERROR, "Invalid age value: 26-35.  Returning 'Unknown'")] []) ∧
  [("Age", [PyStr "Unknown"])] ≠@{DataFrame} [("Age", [PyStr "26-35"])].
Proof. repeat split; by vm_compute. Qed.

Lemma transform_idempotent_job_title_witness :
  transform (args_of (Some "Job Title") None None (Some 2))
    [("Job Title", [PyStr "Engineer"; PyStr "Astronaut"]);
     ("Age", [PyInt 30; PyInt 150]);
     ("City", [PyStr "Austin"; PyStr "Boston"])]
    world0 =
    (inr [("Job Title", [PyStr "Engineer"; PyStr "Astronaut"]);
          ("Age", [PyInt 30; PyInt 150]);
          ("City", [PyStr "Austin"; PyStr "Boston"])],
     world0).
Proof.
  apply (transform_idempotent_job_title
           (args_of (Some "Job Title") None None (Some 2)) people world0).
  - reflexivity.
  - reflexivity.
  - intros n [= <-]. lia.
  - vm_compute; reflexivity.
Defined.

Lemma transform_frame_witness :
  ∃ df' w',
    transform (args_of (Some "Job Title") (Some "Age") None None) people world0
      = (inr df', w') ∧
    columns df' = ["Job Title"; "Age"; "City"] ∧
    get_column "City" df' =
      Some [PyStr "Austin"; PyStr "Boston"; PyStr "Chicago"].
Proof.
  eexists _, _. split; [vm_compute; reflexivity|].
  match goal with
  | |- columns ?d = _ ∧ _ =>
      destruct (transform_frame
                  (args_of (Some "Job Title") (Some "Age") None None)
                  people world0 d _ ltac:(vm_compute; reflexivity))
        as [Hcols Hget]
  end.
  split; [exact Hcols|].
  destruct (Hget "City") as [Hcity _]; [discriminate..|exact Hcity].
Defined.


End Runs.

(** ** The further properties on concrete runs *)

Section MoreRuns.
#[local] Existing Instances binary_repr ascii_digits scripted writable.

Lemma generalize_age_int_unknown_witness :
  generalize_age (PyInt 17) world0 = (inr "Unknown", world0).
Proof.
  apply (proj2 (proj2 (generalize_age_int_unknown 17 world0))). lia.
Defined.

Lemma generalize_age_outcome_witness :
  ∃ e, generalize_age PyNone world0 = (inl e, world0).
Proof.
  apply (proj1 (proj1 (generalize_age_outcome PyNone world0))). by left.
Defined.

Lemma generalize_job_title_changes_witness :
  generalize_job_title "Teacher" ≠ "Teacher".
Proof.
  apply (proj2 (generalize_job_title_changes "Teacher")).
  apply elem_of_dom. exists "Educator". vm_compute; reflexivity.
Defined.

Lemma generalize_age_decimal_string_witness :
  generalize_age (PyStr (Py.str (PyInt 30))) world0
    = generalize_age (PyInt 30) world0.
Proof.
  apply (proj2 (generalize_age_decimal_string 30 world0
                  ltac:(vm_compute; reflexivity))).
Defined.

Lemma transform_city_blind_witness :
  (transform (args_of None None (Some "City") None)
     (set_column "City" [PyInt 1; PyInt 2; PyInt 3] people) world0).1
  = (transform (args_of None None (Some "City") None) people world0).1.
Proof.
  apply (transform_city_blind (args_of None None (Some "City") None) people
           "City" [PyStr "Austin"; PyStr "Boston"; PyStr "Chicago"]);
    reflexivity.
Defined.

Lemma transform_column_lengths_witness :
  ∃ df' w' s',
    transform (args_of (Some "Job Title") (Some "Age") (Some "City") (Some 2))
      people world0 = (inr df', w') ∧
    get_column "City" df' = Some s' ∧ length s' = 2%nat.
Proof.
  eexists _, _. 
  assert (Hrun : ∀ r, r = transform
                        (args_of (Some "Job Title") (Some "Age") (Some "City")
                           (Some 2)) people world0 →
                      transform
                        (args_of (Some "Job Title") (Some "Age") (Some "City")
                           (Some 2)) people world0 = r) by (by intros r ->).
  destruct (transform_column_lengths
              (args_of (Some "Job Title") (Some "Age") (Some "City") (Some 2))
              people world0 _ _ "City" [PyStr "Austin"; PyStr "Boston"]
              (Hrun _ ltac:(vm_compute; reflexivity)) eq_refl)
    as (s' & Hs' & Hlen).
  exists s'. split; [vm_compute; reflexivity|]. split; [exact Hs'|exact Hlen].
Defined.

Lemma transform_age_column_labels_witness :
  Forall is_age_label [PyStr "26-35"; PyStr "Unknown"; PyStr "Unknown"].
Proof.
  apply (transform_age_column_labels (args_of None (Some "Age") None None)
           people world0
           [("Job Title",
             [PyStr "Software Engineer"; PyStr "Astronaut"; PyFloat S754_nan]);
            ("Age", [PyStr "26-35"; PyStr "Unknown"; PyStr "Unknown"]);
            ("City", [PyStr "Austin"; PyStr "Boston"; PyStr "Chicago"])]
           (@World scripted (w_rng world0)
              [(ERROR, "Invalid age value: abc.  Returning 'Unknown'")] [])
           "Age").
  - vm_compute; reflexivity.
  - reflexivity.
  - discriminate.
  - reflexivity.
Defined.

Lemma transform_job_title_column_witness :
  ∃ s, get_column "Job Title"
         (limit_rows (args_of (Some "Job Title") (Some "Age") None None) people)
       = Some s ∧
       get_column "Job Title"
         [("Job Title", [PyStr "Engineer"; PyStr "Astronaut"; PyStr "nan"]);
          ("Age", [PyStr "26-35"; PyStr "Unknown"; PyStr "Unknown"]);
          ("City", [PyStr "Austin"; PyStr "Boston"; PyStr "Chicago"])]
       = Some ((λ v, PyStr (generalize_job_title (Py.str v))) <$> s).
Proof.
  apply (transform_job_title_column
           (args_of (Some "Job Title") (Some "Age") None None) people world0 _
           (@World scripted (w_rng world0)
              [(ERROR, "Invalid age value: abc.  Returning 'Unknown'")] [])
           "Job Title").
  - vm_compute; reflexivity.
  - reflexivity.
  - discriminate.
  - discriminate.
Defined.

Lemma transform_effects_witness :
  w_rng (transform (args_of (Some "Job Title") (Some "Age") None None)
           people world0).2 = w_rng world0.
Proof.
  apply (proj2 (proj2 (transform_effects
                         (args_of (Some "Job Title") (Some "Age") None None)
                         people world0 _ _ (surjective_pairing _)))).
  reflexivity.
Defined.

Lemma transform_limit_beyond_witness :
  transform (args_of (Some "Job Title") None None (Some 5)) people world0 =
  transform (without_limit (args_of (Some "Job Title") None None (Some 5)))
    people world0.
Proof.
  apply (transform_limit_beyond _ people 5); [reflexivity|].
  intros c s Hin.
  repeat (apply elem_of_cons in Hin as [[= -> ->]|Hin]; [simpl; lia|]).
  by apply elem_of_nil in Hin.
Defined.

Lemma transform_no_rows_witness :
  transform (args_of (Some "Job Title") (Some "Age") (Some "City") (Some 0))
    people world0 =
    (inr [("Job Title", []); ("Age", []); ("City", [])], world0).
Proof.
  apply (transform_no_rows
           (args_of (Some "Job Title") (Some "Age") (Some "City") (Some 0))
           people world0).
  - intros c s. cbn. repeat case_decide; by intros [= <-].
  - intros c [[= <-]|[[= <-]|[= <-]]]; by apply (bool_decide_unpack _).
Defined.

Lemma main_load_failure_witness :
  main (λ _, inl (FileNotFoundError "No such file or directory"))
    (args_of None (Some "Age") None None) world0 =
    (inr (),
     @World scripted (w_rng world0)
       [(ERROR, "Input file not found: input.csv")] []).
Proof.
  apply (main_load_failure
           (λ _, inl (FileNotFoundError "No such file or directory"))
           (args_of None (Some "Age") None None)
           (FileNotFoundError "No such file or directory") world0).
  reflexivity.
Defined.

Lemma generalize_city_column_witness :
  ∃ out w',
    apply generalize_city_to_state ["Austin"; "Boston"; "Chicago"] world0
      = (inr out, w') ∧
    length out = 3%nat.
Proof.
  destruct (generalize_city_column ["Austin"; "Boston"; "Chicago"] world0)
    as (out & w' & Hrun & Hlen & _).
  - intros [|[|[|k]]] e Hk; simpl in Hk; [discriminate..|lia].
  - by exists out, w'.
Defined.


Lemma main_succeeds_witness :
  ∃ df',
    w_files (main (λ _, inr people)
               (args_of (Some "Job Title") (Some "Age") (Some "City") None)
               world0).2 = [] ++ [("output.csv", df')] ∧
    columns df' = columns people.
Proof.
  apply (main_succeeds (λ _, inr people)
           (args_of (Some "Job Title") (Some "Age") (Some "City") None)
           people world0).
  - reflexivity.
  - intros c [[= <-]|[[= <-]|[= <-]]]; by apply (bool_decide_unpack _).
  - intros ca s v [= <-] [= <-] Hv.
    repeat (apply elem_of_cons in Hv as [->|Hv]; [done|]).
    by apply elem_of_nil in Hv.
  - intros c s k e [= <-] [= <-] Hk.
    destruct k as [|[|[|k]]]; simpl in Hk; [discriminate..|lia].
  - reflexivity.
Defined.

Lemma generalize_age_diagnostic_witness :
  int_of_str "26-35" = int_of_string "26-35".
Proof.
  apply (proj2 (generalize_age_diagnostic PyNone world0)). reflexivity.
Defined.

End MoreRuns.
